(** * Deep Learning with Databricks: the classroom set-up and the MLflow
      tracking wrapper

    A shallow embedding of

    - [Includes/Classroom-Setup.py]: [path_exists], [install_datasets],
      [list_r], [validate_datasets] and the notebook cells that call them;
    - [Solutions/DL 04 - MLflow.py]: [track_experiments].

    The notebooks are glue code over the Databricks platform ([dbutils]),
    Keras and MLflow.  Calls into the platform are parameters of the
    development: every call is recorded in a trace, file system calls act on
    an abstract file system state, and a platform call either returns or
    raises.  Python exceptions keep the effects that happened before them. *)

From Stdlib Require Import String Ascii List ZArith Lia Bool.
From Stdlib Require Import Sorted Permutation DecimalString.
Import ListNotations.

Local Open Scope list_scope.

(** ** The Python run time the notebooks rely on *)

Module Py.

(** A Python [str].  Characters are code points below 256. *)
Definition str := string.

(** [s[n:]] *)
Fixpoint slice_from (n : nat) (s : str) : str :=
  match n, s with
  | O, _ => s
  | S _, EmptyString => EmptyString
  | S n', String _ s' => slice_from n' s'
  end.

(** The line feed that [print] appends and that the messages embed. *)
Definition nl : str := String (ascii_of_nat 10) EmptyString.

(** [str(z)] for an [int]. *)
Definition str_of_int (z : Z) : str := NilZero.string_of_int (Z.to_int z).

(** [c.lower()] on one code point below 256: A-Z and the accented capitals
    of Latin-1 (all of 192..222 but the multiplication sign 215) move up
    by 32. *)
Definition lower_char (c : ascii) : ascii :=
  let n := nat_of_ascii c in
  if ((65 <=? n) && (n <=? 90))%nat then ascii_of_nat (n + 32)
  else if ((192 <=? n) && (n <=? 222) && negb (n =? 215))%nat
       then ascii_of_nat (n + 32)
       else c.

(** [s.lower()] *)
Fixpoint lower (s : str) : str :=
  match s with
  | EmptyString => EmptyString
  | String c s' => String (lower_char c) (lower s')
  end.

(** [x in l] for a list of strings. *)
Definition mem (x : str) (l : list str) : bool := existsb (String.eqb x) l.

(** [l.sort()]: strings are compared code point by code point.  Equal
    strings are indistinguishable, so the result does not depend on the
    sorting algorithm; insertion sort stands for it. *)
Fixpoint insert_sorted (x : str) (l : list str) : list str :=
  match l with
  | [] => [x]
  | y :: l' => if String.leb x y then x :: l else y :: insert_sorted x l'
  end.

Fixpoint sort (l : list str) : list str :=
  match l with
  | [] => []
  | x :: l' => insert_sorted x (sort l')
  end.

(** The order [sort] sorts by. *)
Definition str_le (a b : str) : Prop := String.leb a b = true.

(** A raised exception.  Every exception of the model is an instance of
    [Exception], so [except Exception] and a bare [except] catch the same
    ones. *)
Inductive exn : Type := Exception (msg : str).

(** What a call into the platform does: it returns a value or raises. *)
Inductive result (A : Type) : Type :=
| Ok (a : A)
| Err (e : exn).
Arguments Ok {A} a.
Arguments Err {A} e.

(** What a run of notebook code does.  [OutOfFuel] is not a Python
    outcome: it marks a run cut short by the recursion bound of the model
    and no handler catches it. *)
Inductive outcome (A : Type) : Type :=
| Returns (a : A)
| Raises (e : exn)
| OutOfFuel.
Arguments Returns {A} a.
Arguments Raises {A} e.
Arguments OutOfFuel {A}.

(** A Python [dict] with string keys: insertion ordered, keys unique. *)
Definition dict (V : Type) := list (str * V).

Fixpoint dict_get {V} (d : dict V) (k : str) : option V :=
  match d with
  | [] => None
  | (k', v) :: d' => if String.eqb k k' then Some v else dict_get d' k
  end.

(** [d[k] = v]: an existing key keeps its position and takes the new
    value, a new key goes last. *)
Fixpoint dict_set {V} (d : dict V) (k : str) (v : V) : dict V :=
  match d with
  | [] => [(k, v)]
  | (k', v') :: d' =>
      if String.eqb k k' then (k', v) :: d' else (k', v') :: dict_set d' k v
  end.

(** [d.update(e)] *)
Definition dict_update {V} (d e : dict V) : dict V :=
  fold_left (fun acc kv => dict_set acc (fst kv) (snd kv)) e d.

(** [{**a, **b, **c}] *)
Definition dict_merge3 {V} (a b c : dict V) : dict V :=
  dict_update (dict_update (dict_update [] a) b) c.

Definition keys {V} (d : dict V) : list str := map fst d.

End Py.

(** ** Running notebook code: state, exceptions and loops *)

Module Run.
Import Py.

(** Notebook code over a state [S]: the state carries everything the
    platform remembers, and an exception leaves the state as it was when
    the exception was raised. *)
Definition M (S A : Type) : Type := S -> outcome A * S.

Definition ret {S A} (a : A) : M S A := fun s => (Returns a, s).

Definition bind {S A B} (m : M S A) (k : A -> M S B) : M S B :=
  fun s =>
    match m s with
    | (Returns a, s') => k a s'
    | (Raises e, s') => (Raises e, s')
    | (OutOfFuel, s') => (OutOfFuel, s')
    end.

(** [raise e] *)
Definition raise {S A} (e : exn) : M S A := fun s => (Raises e, s).

Definition out_of_fuel {S A} : M S A := fun s => (OutOfFuel, s).

(** [try: body / except: handler] (also [except Exception:], see [exn]).
    The handler runs in the state the body left behind. *)
Definition try_except {S A} (body handler : M S A) : M S A :=
  fun s =>
    match body s with
    | (Raises _, s') => handler s'
    | r => r
    end.

(** [try: body / finally: cleanup], as the exit of a [with] block does:
    the clean-up runs on both paths and the body's outcome is kept. *)
Definition try_finally {S A} (body : M S A) (cleanup : outcome A -> M S unit)
  : M S A :=
  fun s =>
    match body s with
    | (OutOfFuel, s') => (OutOfFuel, s')
    | (r, s') =>
        match cleanup r s' with
        | (Returns _, s'') => (r, s'')
        | (Raises e, s'') => (Raises e, s'')
        | (OutOfFuel, s'') => (OutOfFuel, s'')
        end
    end.

(** [for x in xs: body], with the local variables the body updates
    threaded through as [acc]. *)
Fixpoint for_in {S A L} (xs : list A) (body : A -> L -> M S L) (acc : L)
  : M S L :=
  match xs with
  | [] => ret acc
  | x :: xs' => bind (body x acc) (for_in xs' body)
  end.

(** [enumerate(xs)] *)
Fixpoint enumerate_from {A} (i : nat) (xs : list A) : list (nat * A) :=
  match xs with
  | [] => []
  | x :: xs' => (i, x) :: enumerate_from (S i) xs'
  end.
Definition enumerate {A} (xs : list A) : list (nat * A) := enumerate_from 0 xs.

Module Notations.
Notation "x <- m ;; k" := (bind m (fun x => k))
  (at level 61, m at next level, right associativity).
Notation "m ;; k" := (bind m (fun _ => k))
  (at level 61, right associativity).
End Notations.

End Run.

(** ** DL 04 - MLflow: [track_experiments] *)

Module Tracking.
Import Py Run Run.Notations.
Local Open Scope string_scope.

(** The Python values that travel through the keyword dictionaries.
    Floats, arrays and other library objects are opaque. *)
#[local] Set Warnings "-register-all".
Inductive value : Type :=
| VNone
| VStr (s : str)
| VInt (z : Z)
| VList (l : list value)
| VOpaque (id : nat).

(** Calls into Keras, MLflow and matplotlib, in the order they are made. *)
Inductive call : Type :=
| StartRun (run_name : str)
| EndRun (finished : bool)
| BuildModel
| Compile (kwargs : dict value)
| Fit (kwargs : dict value)
| LogParam (key : str) (v : value)
| LogMetric (key : str) (v : value) (step : nat)
| LogModel (artifact_path : str)
| PltCall (fn : str)
| LogFigure (artifact_file : str).

(** A Keras model, as far as the wrapper looks at it: the [output_shape]
    tuple of each layer. *)
Record keras_model : Type := { layers : list (list value) }.

(** [history.history] *)
Definition history := dict (list value).

Section Libraries.

(** What the libraries answer.  [may_raise t c] says whether call [c],
    made after the calls [t], raises. *)
Variable may_raise : list call -> call -> option exn.
Variable built_model : keras_model.
Variable fit_history : dict value -> history.

Definition invoke (c : call) : M (list call) unit :=
  fun t =>
    match may_raise t c with
    | Some e => (Raises e, (t ++ [c])%list)
    | None => (Returns tt, (t ++ [c])%list)
    end.

(** [t[i]] on a tuple. *)
Definition index (t : list value) (i : nat) : M (list call) value :=
  match nth_error t i with
  | Some v => ret v
  | None => raise (Exception "IndexError: tuple index out of range")
  end.

(** [d[k]] *)
Definition getitem {V} (d : dict V) (k : str) : M (list call) V :=
  match dict_get d k with
  | Some v => ret v
  | None => raise (Exception "KeyError")
  end.

Definition view_model_loss (h : history) : M (list call) unit :=
  invoke (PltCall "clf") ;;
  _ <- getitem h "loss" ;;
  invoke (PltCall "plot") ;;
  invoke (PltCall "title") ;;
  invoke (PltCall "ylabel") ;;
  invoke (PltCall "xlabel") ;;
  invoke (PltCall "legend") ;;
  ret tt.

(** The first loop of the wrapper. *)
Definition log_keyword_params (compile_kwargs fit_kwargs optional_params : dict value)
  : M (list call) unit :=
  for_in (dict_merge3 compile_kwargs fit_kwargs optional_params)
    (fun kv _ =>
       let '(param_key, param_value) := kv in
       if negb (mem param_key ["x"; "y"])
       then invoke (LogParam param_key param_value)
       else ret tt) tt.

Definition log_history_metrics (h : history) : M (list call) unit :=
  for_in h
    (fun kvs _ =>
       let '(key, values) := kvs in
       for_in (enumerate values)
         (fun iv _ => let '(i, v) := iv in invoke (LogMetric key v i)) tt) tt.

Definition hidden_layer_key (i : nat) : str :=
  "hidden_layer_" ++ str_of_int (Z.of_nat i) ++ "_units".

Definition log_layer_params (m : keras_model) : M (list call) unit :=
  for_in (enumerate (layers m))
    (fun il _ =>
       let '(i, output_shape) := il in
       units <- index output_shape 1 ;;
       invoke (LogParam (hidden_layer_key i) units)) tt.

Definition track_experiments (run_name : str)
  (compile_kwargs fit_kwargs optional_params : dict value)
  : M (list call) str :=
  invoke (StartRun run_name) ;;
  try_finally
    (invoke BuildModel ;;
     let model := built_model in
     invoke (Compile compile_kwargs) ;;
     invoke (Fit fit_kwargs) ;;
     let h := fit_history fit_kwargs in
     log_keyword_params compile_kwargs fit_kwargs optional_params ;;
     log_history_metrics h ;;
     log_layer_params model ;;
     invoke (LogModel "model") ;;
     view_model_loss h ;;
     invoke (PltCall "gcf") ;;
     invoke (LogFigure "train-validation-loss.png") ;;
     ret run_name)
    (fun r => match r with
              | Returns _ => invoke (EndRun true)
              | _ => invoke (EndRun false)
              end).

(** The parameters logged by a sequence of calls, in order. *)
Fixpoint logged_params (t : list call) : list (str * value) :=
  match t with
  | [] => []
  | LogParam k v :: t' => (k, v) :: logged_params t'
  | _ :: t' => logged_params t'
  end.

(** A block that returns has appended calls, and [P] holds of them. *)
Definition appends {A} (m : M (list call) A) (P : list call -> Prop) : Prop :=
  forall t a t', m t = (Returns a, t') ->
                 exists calls, t' = (t ++ calls)%list /\ P calls.

(** Calls that log the parameters [L], in this order. *)
Definition logs (L : list (str * value)) (calls : list call) : Prop :=
  logged_params calls = L.

(** The keyword parameters the first loop is to log: the merged
    dictionary without ["x"] and ["y"]. *)
Definition keyword_params (compile_kwargs fit_kwargs optional_params : dict value)
  : list (str * value) :=
  filter (fun kv => negb (mem (fst kv) ["x"; "y"]))
    (dict_merge3 compile_kwargs fit_kwargs optional_params).

(** The parameters the loop over the layers logs, numbering from [i]. *)
Definition layer_params_from (i : nat) (ls : list (list value))
  : list (str * value) :=
  flat_map
    (fun il => match nth_error (snd il) 1 with
               | Some units => [(hidden_layer_key (fst il), units)]
               | None => []
               end)
    (enumerate_from i ls).

Definition layer_params (m : keras_model) : list (str * value) :=
  layer_params_from 0 (layers m).

(** *** Notions for further facts about the wrapper *)

(** The calls between [start_run] and the end of the run. *)
Definition inner (c : call) : Prop :=
  match c with
  | StartRun _ | EndRun _ => False
  | _ => True
  end.

(** Every layer has an [output_shape[1]]. *)
Definition shapes_ok (m : keras_model) : bool :=
  forallb (fun shape => match nth_error shape 1 with
                        | Some _ => true
                        | None => false
                        end) (layers m).

Definition log_param_call (kv : str * value) : call :=
  LogParam (fst kv) (snd kv).

(** The calls of the first loop. *)
Definition keyword_calls (compile_kwargs fit_kwargs optional_params : dict value)
  : list call :=
  map log_param_call (keyword_params compile_kwargs fit_kwargs optional_params).

(** The calls of the loop over the history: every metric, epoch by
    epoch. *)
Definition metric_calls (h : history) : list call :=
  flat_map
    (fun kvs => map (fun iv => LogMetric (fst kvs) (snd iv) (fst iv))
                  (enumerate (snd kvs)))
    h.

(** The calls of the loop over the layers, up to the first layer without
    an [output_shape[1]]. *)
Fixpoint layer_calls_from (i : nat) (ls : list (list value)) : list call :=
  match ls with
  | [] => []
  | shape :: rest =>
      match nth_error shape 1 with
      | Some units =>
          LogParam (hidden_layer_key i) units :: layer_calls_from (S i) rest
      | None => []
      end
  end.

Definition layer_calls (m : keras_model) : list call :=
  layer_calls_from 0 (layers m).

(** The calls of [view_model_loss] after [plt.clf()]. *)
Definition plot_calls : list call :=
  [PltCall "plot"; PltCall "title"; PltCall "ylabel"; PltCall "xlabel";
   PltCall "legend"].

(** The calls of a run up to the loop over the layers. *)
Definition opening_calls (run_name : str)
  (compile_kwargs fit_kwargs optional_params : dict value) (h : history)
  : list call :=
  ([StartRun run_name; BuildModel; Compile compile_kwargs; Fit fit_kwargs]
     ++ keyword_calls compile_kwargs fit_kwargs optional_params
     ++ metric_calls h)%list.

(** All the calls of a run that returns. *)
Definition run_calls (run_name : str)
  (compile_kwargs fit_kwargs optional_params : dict value)
  (m : keras_model) (h : history) : list call :=
  (opening_calls run_name compile_kwargs fit_kwargs optional_params h
     ++ layer_calls m
     ++ [LogModel "model"; PltCall "clf"] ++ plot_calls
     ++ [PltCall "gcf"; LogFigure "train-validation-loss.png"; EndRun true])%list.

Definition index_error : exn :=
  Exception "IndexError: tuple index out of range".

Definition key_error : exn := Exception "KeyError".

(** Every one of the calls [calls], made one after the other after the
    calls [t], was answered without an exception. *)
Fixpoint answered (t calls : list call) : Prop :=
  match calls with
  | [] => True
  | c :: rest => may_raise t c = None /\ answered (t ++ [c]) rest
  end.

(** The calls [calls], made after [t], were answered up to the last one,
    which raised [e]. *)
Fixpoint raised_last (t calls : list call) (e : exn) : Prop :=
  match calls with
  | [] => False
  | c :: rest =>
      match rest with
      | [] => may_raise t c = Some e
      | _ :: _ => may_raise t c = None /\ raised_last (t ++ [c]) rest e
      end
  end.

(** How a block that made the calls [calls] after [t] came to raise [e]:
    by a lookup of the wrapper itself after calls that were all
    answered, or by its last call. *)
Definition block_raised (t calls : list call) (e : exn) : Prop :=
  ((e = index_error \/ e = key_error) /\ answered t calls)
  \/ raised_last t calls e.

(** A block makes calls between the start and the end of a run only,
    comes to an end, returns a value that [Q] allows when all its calls
    were answered, and raises as [block_raised] says. *)
Definition tracked {A} (Q : A -> Prop) (m : M (list call) A) : Prop :=
  forall t, exists calls,
    snd (m t) = (t ++ calls)%list
    /\ Forall inner calls
    /\ match fst (m t) with
       | Returns a => answered t calls /\ Q a
       | Raises e => block_raised t calls e
       | OutOfFuel => False
       end.

End Libraries.

(** *** The first run of the notebook *)

Definition adam_compile_kwargs : dict value :=
  [("optimizer", VStr "adam"); ("loss", VStr "mse");
   ("metrics", VList [VStr "mse"; VStr "mae"])].

(** [X_train] and [y_train] are arrays: opaque objects 0 and 1. *)
Definition adam_fit_kwargs : dict value :=
  [("x", VOpaque 0); ("y", VOpaque 1); ("epochs", VInt 10);
   ("verbose", VInt 2); ("batch_size", VInt 64)].

(** [build_model()]: two hidden layers of 20 units and one output. *)
Definition notebook_model : keras_model :=
  {| layers := [[VNone; VInt 20]; [VNone; VInt 20]; [VNone; VInt 1]] |}.

(** A training history of two epochs; the losses are floats. *)
Definition two_epochs (kwargs : dict value) : history :=
  [("loss", [VOpaque 10; VOpaque 11]); ("mse", [VOpaque 12; VOpaque 13]);
   ("mae", [VOpaque 14; VOpaque 15])].

Definition never_raises (t : list call) (c : call) : option exn := None.

Definition adam_run : outcome str * list call :=
  track_experiments never_raises notebook_model two_epochs "ADAM"
    adam_compile_kwargs adam_fit_kwargs [] [].

(** Libraries in which the training fails: [model.fit] raises. *)
Definition fit_raises (t : list call) (c : call) : option exn :=
  match c with
  | Fit _ => Some (Exception "fit failed")
  | _ => None
  end.

(** A model whose second layer has a shape of one entry, and a history
    without a loss. *)
Definition flat_model : keras_model :=
  {| layers := [[VNone; VInt 20]; [VInt 7]; [VNone; VInt 1]] |}.

Definition no_loss (kwargs : dict value) : history :=
  [("mse", [VOpaque 12; VOpaque 13])].

(** Keyword dictionaries that share keys. *)
Definition shared_compile_kwargs : dict value :=
  [("optimizer", VStr "adam"); ("epochs", VInt 1)].
Definition shared_fit_kwargs : dict value :=
  [("epochs", VInt 10); ("verbose", VInt 2)].
Definition shared_optional_params : dict value :=
  [("verbose", VInt 0); ("standardize_data", VStr "true")].

End Tracking.

(** ** Includes/Classroom-Setup *)

Module Classroom.
Import Py Run Run.Notations.
Local Open Scope string_scope.

(** An entry of a [dbutils.fs.ls] listing: its [path] and the answer of
    its [isDir()]. *)
Record FileInfo : Type := { path : str; isDir : bool }.

(** The calls of the set-up into the platform and the console. *)
Inductive event : Type :=
| Ls (p : str)
| Rm (p : str) (recurse : bool)
| Cp (src dst : str) (recurse : bool)
| Mkdirs (p : str)
| WidgetGet (name : str)
| Time
| Print (text : str).

(** The remote copy of the datasets. *)
Definition source_path : str :=
  "wasbs://courseware@dbacademy.blob.core.windows.net/deep-learning-with-databricks/v01".

(** *** Two small platforms to run the set-up on

    A workspace whose remote source holds a file and a directory with one
    file.  Locally the datasets are absent, installed, or installed with
    a file the source does not have. *)

Inductive demo_fs : Type := Absent | Installed | Stale.

Definition demo_userhome : str := "dbfs:/user/student".
Definition demo_course_dir : str := "dbfs:/user/student/dl".
Definition demo_working_dir : str := "dbfs:/user/student/dl/work".
Definition demo_datasets_dir : str := demo_course_dir ++ "/datasets".

Definition not_found : exn := Exception "java.io.FileNotFoundException".

(** The listing of the datasets below [root]. *)
Definition demo_top (root : str) : list FileInfo :=
  [ {| path := root ++ "/a.csv"; isDir := false |};
    {| path := root ++ "/d/"; isDir := true |} ].

Definition demo_sub (root : str) : list FileInfo :=
  [ {| path := root ++ "/d/b.csv"; isDir := false |} ].

Definition demo_old : FileInfo :=
  {| path := demo_datasets_dir ++ "/old.csv"; isDir := false |}.

Definition demo_ls (s : demo_fs) (p : str) : result (list FileInfo) :=
  if String.eqb p source_path then Ok (demo_top source_path)
  else if String.eqb p (source_path ++ "/d/") then Ok (demo_sub source_path)
  else if String.eqb p demo_datasets_dir then
    match s with
    | Absent => Err not_found
    | Installed => Ok (demo_top demo_datasets_dir)
    | Stale =>
        Ok (demo_top demo_datasets_dir ++ [demo_old])%list
    end
  else if String.eqb p (demo_datasets_dir ++ "/d/") then
    match s with
    | Absent => Err not_found
    | _ => Ok (demo_sub demo_datasets_dir)
    end
  else Err not_found.

Definition demo_rm (s : demo_fs) (p : str) (recurse : bool)
  : result bool * demo_fs :=
  if String.eqb p demo_datasets_dir
  then (Ok (match s with Absent => false | _ => true end), Absent)
  else (Err not_found, s).

Definition demo_cp (s : demo_fs) (src dst : str) (recurse : bool)
  : result bool * demo_fs :=
  if String.eqb src source_path && String.eqb dst demo_datasets_dir
  then (Ok true, Installed)
  else (Err not_found, s).

Definition demo_mkdirs (s : demo_fs) (p : str) : result bool * demo_fs :=
  (Ok true, s).

(** No widget is defined. *)
Definition no_widgets (name : str) : result str :=
  Err (Exception "InputWidgetNotDefined").

(** The widget [reinstall] is set to [True]. *)
Definition reinstall_widget (name : str) : result str :=
  if String.eqb name "reinstall" then Ok "True"
  else Err (Exception "InputWidgetNotDefined").

Definition demo_clock (n : nat) : Z := 1600000000 + Z.of_nat n.

(** A workspace that reaches neither its own storage nor the source:
    every file system call raises. *)
Definition offline_ls (s : unit) (p : str) : result (list FileInfo) :=
  Err (Exception "listing failed").
Definition offline_rm (s : unit) (p : str) (recurse : bool) : result bool * unit :=
  (Err (Exception "remove failed"), s).
Definition offline_cp (s : unit) (src dst : str) (recurse : bool)
  : result bool * unit :=
  (Err (Exception "copy failed"), s).
Definition offline_mkdirs (s : unit) (p : str) : result bool * unit :=
  (Err (Exception "mkdirs failed"), s).

(** A datasets directory that cannot be removed: the removal raises and
    leaves the directory as it is. *)
Definition locked_rm (s : demo_fs) (p : str) (recurse : bool)
  : result bool * demo_fs :=
  (Err (Exception "remove failed"), s).

(** A workspace that keeps the directories made so far beside the state
    of its datasets.  [mkdirs] makes a directory that is not there, and
    leaves the workspace as it is otherwise. *)
Record home_fs : Type := { made : list str; datasets : demo_fs }.

Definition home_ls (s : home_fs) (p : str) : result (list FileInfo) :=
  demo_ls (datasets s) p.

Definition home_rm (s : home_fs) (p : str) (recurse : bool)
  : result bool * home_fs :=
  let '(r, d) := demo_rm (datasets s) p recurse in
  (r, {| made := made s; datasets := d |}).

Definition home_cp (s : home_fs) (src dst : str) (recurse : bool)
  : result bool * home_fs :=
  let '(r, d) := demo_cp (datasets s) src dst recurse in
  (r, {| made := made s; datasets := d |}).

Definition home_mkdirs (s : home_fs) (p : str) : result bool * home_fs :=
  if mem p (made s) then (Ok true, s)
  else (Ok true, {| made := (made s ++ [p])%list; datasets := datasets s |}).

Definition home_is_dir (s : home_fs) (q : str) : Prop := In q (made s).

(** A workspace whose source serves a limited number of copies: the
    state of the datasets, and the number of copies that are left. *)
Definition metered_fs : Type := (demo_fs * nat)%type.

Definition metered_ls (s : metered_fs) (p : str) : result (list FileInfo) :=
  demo_ls (fst s) p.

Definition metered_rm (s : metered_fs) (p : str) (recurse : bool)
  : result bool * metered_fs :=
  let '(r, d) := demo_rm (fst s) p recurse in (r, (d, snd s)).

Definition metered_cp (s : metered_fs) (src dst : str) (recurse : bool)
  : result bool * metered_fs :=
  match snd s with
  | O => (Err (Exception "copy failed"), s)
  | S rest => let '(r, d) := demo_cp (fst s) src dst recurse in (r, (d, rest))
  end.

Definition metered_mkdirs (s : metered_fs) (p : str) : result bool * metered_fs :=
  (Ok true, s).

(** The demonstration workspace with a source whose directory [d/]
    cannot be read. *)
Definition unread_ls (s : demo_fs) (p : str) : result (list FileInfo) :=
  if String.eqb p (source_path ++ "/d/") then Err not_found else demo_ls s p.

(** A directory [in:] with two files, listed in one order or the other. *)
Definition two_files : list FileInfo :=
  [ {| path := "in:/b.txt"; isDir := false |};
    {| path := "in:/a.txt"; isDir := false |} ].

Definition either_order_ls (reversed : bool) (p : str)
  : result (list FileInfo) :=
  if String.eqb p "in:"
  then Ok (if reversed then rev two_files else two_files)
  else Err not_found.

Section Platform.

(** The state of the distributed file system, and what each [dbutils.fs]
    call does to it.  A listing reads the state; the other calls may change
    it, also when they raise. *)
Context {FS : Type}.
Variable fs_ls : FS -> str -> result (list FileInfo).
Variable fs_rm : FS -> str -> bool -> result bool * FS.
Variable fs_cp : FS -> str -> str -> bool -> result bool * FS.
Variable fs_mkdirs : FS -> str -> result bool * FS.

(** [dbutils.widgets.get] *)
Variable widgets_get : str -> result str.

(** [int(time.time())] at the n-th call into the platform. *)
Variable clock : nat -> Z.

(** Set by Class-Utility-Methods, which the set-up runs first:
    [getUserhome()], [getCourseDir()] and [getWorkingDir()]. *)
Variable userhome course_dir working_dir : str.

Record World : Type := { fs : FS; trace : list event }.

Definition log (e : event) (w : World) : World :=
  {| fs := fs w; trace := (trace w ++ [e])%list |}.

Definition datasets_dir : str := course_dir ++ "/datasets".

(** *** The platform calls *)

Definition dbutils_fs_ls (p : str) : M World (list FileInfo) :=
  fun w =>
    match fs_ls (fs w) p with
    | Ok files => (Returns files, log (Ls p) w)
    | Err e => (Raises e, log (Ls p) w)
    end.

Definition lift_fs (e : event) (call : FS -> result bool * FS) : M World bool :=
  fun w =>
    let '(r, fs') := call (fs w) in
    let w' := {| fs := fs'; trace := (trace w ++ [e])%list |} in
    match r with
    | Ok b => (Returns b, w')
    | Err x => (Raises x, w')
    end.

Definition dbutils_fs_rm (p : str) (recurse : bool) : M World bool :=
  lift_fs (Rm p recurse) (fun s => fs_rm s p recurse).

Definition dbutils_fs_cp (src dst : str) (recurse : bool) : M World bool :=
  lift_fs (Cp src dst recurse) (fun s => fs_cp s src dst recurse).

Definition dbutils_fs_mkdirs (p : str) : M World bool :=
  lift_fs (Mkdirs p) (fun s => fs_mkdirs s p).

Definition dbutils_widgets_get (name : str) : M World str :=
  fun w =>
    match widgets_get name with
    | Ok v => (Returns v, log (WidgetGet name) w)
    | Err e => (Raises e, log (WidgetGet name) w)
    end.

Definition time_time : M World Z :=
  fun w => (Returns (clock (length (trace w))), log Time w).

(** [print(text, end=e)] *)
Definition print_end (text e : str) : M World unit :=
  fun w => (Returns tt, log (Print (text ++ e)) w).

(** [print(text)] *)
Definition print (text : str) : M World unit := print_end text nl.

(** *** The functions of the notebook *)

(** The cell that creates the user's directories. *)
Definition make_directories : M World unit :=
  dbutils_fs_mkdirs userhome ;;
  dbutils_fs_mkdirs course_dir ;;
  dbutils_fs_mkdirs working_dir ;;
  ret tt.

Definition path_exists (p : str) : M World bool :=
  try_except
    (files <- dbutils_fs_ls p ;;
     ret (Z.of_nat (length files) >=? 0)%Z)
    (ret false).

Definition install_datasets (reinstall : bool) : M World unit :=
  let min_time := "3 min" in
  let max_time := "10 min" in
  print ("The source for this dataset is" ++ nl ++ source_path ++ "/" ++ nl) ;;
  let target_dir := datasets_dir in
  print ("Your dataset directory is" ++ nl ++ target_dir ++ nl) ;;
  existing <- path_exists target_dir ;;
  if negb reinstall && existing then
    print "Skipping install of existing dataset."
  else
    (if existing then
       print ("Removing previously installed datasets from" ++ nl ++ target_dir) ;;
       dbutils_fs_rm target_dir true ;;
       ret tt
     else ret tt) ;;
    print ("Installing the datasets to " ++ target_dir) ;;
    print (nl ++ "NOTE: The datasets that we are installing are located in Washington, USA - depending on the"
           ++ nl ++ "          region that your workspace is in, this operation can take as little as "
           ++ min_time ++ " and "
           ++ nl ++ "          upwards to " ++ max_time ++ ", but this is a one-time operation.") ;;
    print (nl ++ "Installing the dataset...") ;;
    dbutils_fs_cp source_path target_dir true ;;
    print (nl ++ "The install of the datasets completed successfully.").

(** [results] is one list object shared by all the recursive calls: each
    call appends to it and sorts it in place, so it is threaded through.
    [fuel] bounds the depth of the recursion. *)
Fixpoint list_r (fuel : nat) (p : str) (prefix : option str)
  (results : option (list str)) : M World (list str) :=
  match fuel with
  | O => out_of_fuel
  | S fuel' =>
      let prefix := match prefix with None => p | Some x => x end in
      let results := match results with None => [] | Some l => l end in
      files <- dbutils_fs_ls p ;;
      results <-
        for_in files
          (fun file results =>
             let data := slice_from (String.length prefix) (path file) in
             let results := (results ++ [data])%list in
             if isDir file
             then list_r fuel' (path file) (Some prefix) (Some results)
             else ret results)
          results ;;
      ret (sort results)
  end.

Definition validation_failed : exn :=
  Exception "Validation failed - see previous messages for more information.".

Definition validate_datasets (fuel : nat) : M World unit :=
  start <- time_time ;;
  print_end (nl ++ "Validating the local copy of the datsets") "..." ;;
  local_files <- list_r fuel datasets_dir None None ;;
  remote_files <- list_r fuel source_path None None ;;
  for_in local_files
    (fun file _ =>
       if negb (mem file remote_files) then
         print (nl ++ "  - Found extra file: " ++ file) ;;
         print "  - This problem can be fixed by reinstalling the datasets" ;;
         raise validation_failed
       else ret tt) tt ;;
  for_in remote_files
    (fun file _ =>
       if negb (mem file local_files) then
         print (nl ++ "  - Missing file: " ++ file) ;;
         print "  - This problem can be fixed by reinstalling the datasets" ;;
         raise validation_failed
       else ret tt) tt ;;
  now <- time_time ;;
  print ("(" ++ str_of_int (now - start) ++ " seconds)").

(** The first attempt of the installation cell: the body of its [try]. *)
Definition first_attempt : M World unit :=
  v <- dbutils_widgets_get "reinstall" ;;
  let reinstall := String.eqb (lower v) "true" in
  install_datasets reinstall.

(** The installation cell without its last statement. *)
Definition install_cell : M World unit :=
  try_except first_attempt (install_datasets false).

(** The installation cell. *)
Definition setup_cell (fuel : nat) : M World unit :=
  install_cell ;;
  validate_datasets fuel.

(** The set-up, from the creation of the directories on. *)
Definition setup (fuel : nat) : M World unit :=
  make_directories ;;
  setup_cell fuel.

(** *** The notions the theorems speak about *)

(** [g] is listed somewhere below [p]: in the listing of [p], or below one
    of the directories of that listing. *)
Inductive descendant (s : FS) : str -> FileInfo -> Prop :=
| desc_child p files f :
    fs_ls s p = Ok files -> In f files -> descendant s p f
| desc_deeper p files d g :
    fs_ls s p = Ok files -> In d files -> isDir d = true ->
    descendant s (path d) g -> descendant s p g.

(** [p] roots a tree of depth at most [n]: [p] can be listed, the path of
    every entry extends [p], and every directory among the entries roots a
    tree of depth at most [n - 1]. *)
Inductive tree_at (s : FS) : nat -> str -> Prop :=
| tree_node n p files :
    fs_ls s p = Ok files ->
    (forall f, In f files -> exists rest, path f = p ++ rest) ->
    (forall f, In f files -> isDir f = true -> tree_at s n (path f)) ->
    tree_at s (S n) p.

(** The relative path [x] is in the recursive listing of [p]: some
    descendant of [p] has the path [p ++ x]. *)
Definition listed_below (s : FS) (p x : str) : Prop :=
  exists g, descendant s p g /\ path g = p ++ x.

(** The body of the loop of [list_r], for the recursive calls [rec]. *)
Definition list_r_body (rec : str -> option str -> option (list str) -> M World (list str))
  (prefix : str) (file : FileInfo) (results : list str) : M World (list str) :=
  let data := slice_from (String.length prefix) (path file) in
  let results := (results ++ [data])%list in
  if isDir file
  then rec (path file) (Some prefix) (Some results)
  else ret results.

(** What a run of [list_r] below [p] adds to [acc]. *)
Definition lists_below (s : FS) (prefix p : str) (acc l : list str) : Prop :=
  forall x, In x l <->
            In x acc \/
            exists g, descendant s p g /\
                      x = slice_from (String.length prefix) (path g).

(** The calls of a trace that change the file system. *)
Definition is_rm_or_cp (e : event) : bool :=
  match e with
  | Rm _ _ | Cp _ _ _ => true
  | _ => false
  end.

(** The calls of a trace into [dbutils.fs]. *)
Definition is_fs_call (e : event) : bool :=
  match e with
  | Ls _ | Rm _ _ | Cp _ _ _ | Mkdirs _ => true
  | _ => false
  end.

(** The outcome of a block whose last effect is a platform call. *)
Definition finish (r : result bool) : outcome unit :=
  match r with
  | Ok _ => Returns tt
  | Err e => Raises e
  end.

(** The run from [w] to [w'] made exactly the [dbutils.fs] calls [calls],
    in this order (whatever it printed in between). *)
Definition fs_calls_between (w w' : World) (calls : list event) : Prop :=
  exists evs, trace w' = (trace w ++ evs)%list /\ filter is_fs_call evs = calls.

(** The first thing [validate_datasets] prints. *)
Definition validation_banner : event :=
  Print ((nl ++ "Validating the local copy of the datsets") ++ "...").

(** [validate_datasets] after its banner. *)
Definition validate_from (fuel : nat) (start : Z) : M World unit :=
  local_files <- list_r fuel datasets_dir None None ;;
  remote_files <- list_r fuel source_path None None ;;
  for_in local_files
    (fun file _ =>
       if negb (mem file remote_files) then
         print (nl ++ "  - Found extra file: " ++ file) ;;
         print "  - This problem can be fixed by reinstalling the datasets" ;;
         raise validation_failed
       else ret tt) tt ;;
  for_in remote_files
    (fun file _ =>
       if negb (mem file local_files) then
         print (nl ++ "  - Missing file: " ++ file) ;;
         print "  - This problem can be fixed by reinstalling the datasets" ;;
         raise validation_failed
       else ret tt) tt ;;
  now <- time_time ;;
  print ("(" ++ str_of_int (now - start) ++ " seconds)").

(** Every run of [m] takes a world to one that [R] relates to it. *)
Definition respects (R : World -> World -> Prop) {A} (m : M World A) : Prop :=
  forall w, R w (snd (m w)).

(** The trace of [w'] is that of [w] followed by events that satisfy [P]. *)
Definition extends (P : event -> Prop) (w w' : World) : Prop :=
  exists evs, trace w' = (trace w ++ evs)%list /\ Forall P evs.

(** Code that only adds to the trace. *)
Definition grows {A} (m : M World A) : Prop :=
  respects (extends (fun _ => True)) m.

(** From [w] to [w'] the file system was only read: it is the same, and
    nothing was removed or copied in between. *)
Definition only_read (w w' : World) : Prop :=
  fs w' = fs w /\ extends (fun e => is_rm_or_cp e = false) w w'.

(** [m] and [m'] do the same when started on the same file system: same
    outcome, same file system afterwards. *)
Definition same_on_fs {A} (m m' : M World A) : Prop :=
  forall w w', fs w = fs w' ->
    fst (m w) = fst (m' w') /\ fs (snd (m w)) = fs (snd (m' w')).

(** What a run leaves on the file system: its outcome and the final
    file system state, the trace forgotten. *)
Definition on_fs {A} (r : outcome A * World) : outcome A * FS :=
  (fst r, fs (snd r)).

(** [install_datasets], read off the file system alone. *)
Definition install_fs (reinstall : bool) (s : FS) : outcome unit * FS :=
  match fs_ls s datasets_dir with
  | Ok _ =>
      if reinstall then
        match fs_rm s datasets_dir true with
        | (Ok _, s1) =>
            let '(r, s2) := fs_cp s1 source_path datasets_dir true in
            (finish r, s2)
        | (Err x, s1) => (Raises x, s1)
        end
      else (Returns tt, s)
  | Err _ =>
      let '(r, s2) := fs_cp s source_path datasets_dir true in
      (finish r, s2)
  end.

(** The flag the installation cell computes from the widget. *)
Definition reinstall_requested : bool :=
  match widgets_get "reinstall" with
  | Ok v => String.eqb (lower v) "true"
  | Err _ => false
  end.

(** The installation cell, read off the file system alone. *)
Definition install_cell_fs (s : FS) : outcome unit * FS :=
  match widgets_get "reinstall" with
  | Ok v =>
      match install_fs (String.eqb (lower v) "true") s with
      | (Raises _, s1) => install_fs false s1
      | r => r
      end
  | Err _ => install_fs false s
  end.

(** The cell that creates the directories, read off the file system. *)
Definition make_directories_fs (s : FS) : outcome unit * FS :=
  match fs_mkdirs s userhome with
  | (Err x, s1) => (Raises x, s1)
  | (Ok _, s1) =>
      match fs_mkdirs s1 course_dir with
      | (Err x, s2) => (Raises x, s2)
      | (Ok _, s2) =>
          match fs_mkdirs s2 working_dir with
          | (Err x, s3) => (Raises x, s3)
          | (Ok _, s3) => (Returns tt, s3)
          end
      end
  end.

(** The directories the set-up creates. *)
Definition setup_dirs : list str := [userhome; course_dir; working_dir].

(** *** The contract of [dbutils.fs] behind the idempotence of the set-up

    [is_dir s q] reads: [q] is a directory of the file system [s]. *)

Definition dirs_exist (is_dir : FS -> str -> Prop) (s : FS) : Prop :=
  forall q, In q setup_dirs -> is_dir s q.

(** [mkdirs] leaves a file system alone when the directory is there,
    makes the directory otherwise, and removes no directory. *)
Definition mkdirs_contract (is_dir : FS -> str -> Prop) : Prop :=
  (forall s q, is_dir s q -> exists b, fs_mkdirs s q = (Ok b, s))
  /\ (forall s q b s', fs_mkdirs s q = (Ok b, s') -> is_dir s' q)
  /\ (forall s p b s' q, fs_mkdirs s p = (Ok b, s') -> is_dir s q -> is_dir s' q).

(** A copy that returns has made its target, and a copy, also one that
    raises, leaves the directories of the set-up in place. *)
Definition cp_contract (is_dir : FS -> str -> Prop) : Prop :=
  (forall s b s',
      fs_cp s source_path datasets_dir true = (Ok b, s') ->
      exists files, fs_ls s' datasets_dir = Ok files)
  /\ (forall s r s',
      fs_cp s source_path datasets_dir true = (r, s') ->
      dirs_exist is_dir s -> dirs_exist is_dir s').

(** *** Notions for further facts about the set-up *)

(** The entries of [files] in the order [list_r] meets them: every entry,
    followed by what [rec] finds below it when it is a directory. *)
Fixpoint below (rec : str -> option (list FileInfo)) (files : list FileInfo)
  : option (list FileInfo) :=
  match files with
  | [] => Some []
  | file :: rest =>
      match (if isDir file then rec (path file) else Some []), below rec rest with
      | Some sub, Some more => Some (file :: sub ++ more)%list
      | _, _ => None
      end
  end.

(** The entries below [p], in the order [list_r] meets them; [None] when a
    listing raises or the tree is deeper than [fuel]. *)
Fixpoint walk (fuel : nat) (s : FS) (p : str) : option (list FileInfo) :=
  match fuel with
  | O => None
  | S fuel' =>
      match fs_ls s p with
      | Ok files => below (walk fuel' s) files
      | Err _ => None
      end
  end.

(** [file.path[len(prefix):]] *)
Definition strip (prefix : str) (file : FileInfo) : str :=
  slice_from (String.length prefix) (path file).

(** The calls that only look: a listing, the clock, the console. *)
Definition is_query (e : event) : Prop :=
  match e with
  | Ls _ | Time | Print _ => True
  | _ => False
  end.

(** The recursive listing of [root] on the file system [s] comes to list
    [p]: [p] is [root], or a directory found below it. *)
Definition walked (s : FS) (root p : str) : Prop :=
  p = root
  \/ exists g, descendant s root g /\ isDir g = true /\ path g = p.

(** The run from [w] to [w'] ended in a listing that raised [e]: the last
    call is [dbutils.fs.ls p] for a [p] that [place] allows, and [e] is
    what that listing raises. *)
Definition raised_by_listing (place : str -> Prop) (w w' : World) (e : exn)
  : Prop :=
  exists evs p,
    trace w' = (trace w ++ evs ++ [Ls p])%list
    /\ fs_ls (fs w) p = Err e
    /\ place p.

(** Code that, started on the file system [s], leaves it alone, only
    adds to the trace, and raises nothing but what [ok] allows or what a
    listing at one of the places [place] raised as its last call. *)
Definition faults_of_ls (s : FS) (ok : exn -> Prop) (place : str -> Prop)
  {A} (m : M World A) : Prop :=
  forall w, fs w = s ->
    fs (snd (m w)) = s
    /\ (exists evs, trace (snd (m w)) = (trace w ++ evs)%list)
    /\ forall e, fst (m w) = Raises e ->
                 ok e \/ raised_by_listing place w (snd (m w)) e.

(** [c] is the letter [lo] or its capital [up]. *)
Definition either (lo up c : ascii) : bool :=
  (Ascii.eqb c lo || Ascii.eqb c up)%bool.

(** [v] is one of the sixteen spellings of [true]. *)
Definition spells_true (v : str) : bool :=
  match v with
  | String c1 (String c2 (String c3 (String c4 EmptyString))) =>
      (either "t" "T" c1 && either "r" "R" c2
       && either "u" "U" c3 && either "e" "E" c4)%bool
  | _ => false
  end.

(** What the set-up may do to the platform: it removes nothing but the
    datasets directory, and that only on request; it copies from the
    source to the datasets directory only; it creates its three
    directories only; it reads the widget [reinstall] only. *)
Definition setup_may (e : event) : Prop :=
  match e with
  | Rm p recurse => reinstall_requested = true /\ p = datasets_dir
  | Cp src dst recurse => src = source_path /\ dst = datasets_dir
  | Mkdirs p => In p setup_dirs
  | WidgetGet name => name = "reinstall"
  | Ls _ | Time | Print _ => True
  end.

(** The two messages of a failed validation. *)
Definition extra_file_message (x : str) : event :=
  Print ((nl ++ "  - Found extra file: " ++ x) ++ nl).

Definition fix_message : event :=
  Print ("  - This problem can be fixed by reinstalling the datasets" ++ nl).

(** The calls that list a directory. *)
Definition is_ls (e : event) : Prop :=
  match e with
  | Ls _ => True
  | _ => False
  end.

(** *** Facts about the run time *)

Lemma leb_refl (a : str) : str_le a a.
Proof.
  unfold str_le. destruct (String.leb_total a a); assumption.
Qed.

Lemma leb_trans (a b c : str) : str_le a b -> str_le b c -> str_le a c.
Proof.
  unfold str_le, String.leb. revert b c.
  induction a as [|x a IH]; intros [|y b] [|z c]; simpl; try congruence.
  unfold Ascii.compare.
  destruct (N.compare_spec (N_of_ascii x) (N_of_ascii y)) as [Exy|Lxy|Gxy];
    destruct (N.compare_spec (N_of_ascii y) (N_of_ascii z)) as [Eyz|Lyz|Gyz];
    destruct (N.compare_spec (N_of_ascii x) (N_of_ascii z)) as [Exz|Lxz|Gxz];
    try congruence; try lia; try (intros; apply (IH b c); assumption).
Qed.

Lemma insert_sorted_perm (x : str) (l : list str) :
  Permutation (x :: l) (insert_sorted x l).
Proof.
  induction l as [|y l IH]; simpl.
  - apply Permutation_refl.
  - destruct (String.leb x y).
    + apply Permutation_refl.
    + eapply perm_trans; [apply perm_swap|]. apply perm_skip, IH.
Qed.

Lemma sort_perm (l : list str) : Permutation l (sort l).
Proof.
  induction l as [|x l IH]; simpl.
  - apply perm_nil.
  - eapply perm_trans; [apply perm_skip, IH | apply insert_sorted_perm].
Qed.

Lemma sort_In (l : list str) (x : str) : In x (sort l) <-> In x l.
Proof.
  split; intros H.
  - eapply Permutation_in; [apply Permutation_sym, sort_perm | exact H].
  - eapply Permutation_in; [apply sort_perm | exact H].
Qed.

Lemma insert_sorted_hd (a x : str) (l : list str) :
  str_le a x -> HdRel str_le a l -> HdRel str_le a (insert_sorted x l).
Proof.
  intros Hax Hal. destruct l as [|y l]; simpl.
  - constructor. exact Hax.
  - destruct (String.leb x y); constructor.
    + exact Hax.
    + inversion Hal. assumption.
Qed.

Lemma insert_sorted_sorted (x : str) (l : list str) :
  Sorted str_le l -> Sorted str_le (insert_sorted x l).
Proof.
  induction 1 as [|y l Hs IH Hhd]; simpl.
  - repeat constructor.
  - destruct (String.leb x y) eqn:E.
    + constructor; [constructor; assumption | constructor; exact E].
    + constructor; [exact IH|].
      apply insert_sorted_hd; [|exact Hhd].
      destruct (String.leb_total x y) as [H|H]; [congruence | exact H].
Qed.

Lemma sort_sorted (l : list str) : Sorted str_le (sort l).
Proof.
  induction l as [|x l IH]; simpl.
  - constructor.
  - apply insert_sorted_sorted, IH.
Qed.

Lemma sort_strongly_sorted (l : list str) : StronglySorted str_le (sort l).
Proof.
  apply Sorted_StronglySorted.
  - intros a b c. apply leb_trans.
  - apply sort_sorted.
Qed.

Lemma mem_In (x : str) (l : list str) : mem x l = true <-> In x l.
Proof.
  unfold mem. rewrite existsb_exists. split.
  - intros [y [Hy E]]. apply String.eqb_eq in E. subst. exact Hy.
  - intros H. exists x. split; [exact H | apply String.eqb_refl].
Qed.

Lemma mem_false (x : str) (l : list str) : mem x l = false <-> ~ In x l.
Proof.
  rewrite <- mem_In. destruct (mem x l); split; congruence.
Qed.

(** [s[len(p):]] strips [p] from a string that starts with it. *)
Lemma slice_from_app (p s : str) : slice_from (String.length p) (p ++ s) = s.
Proof.
  induction p as [|c p IH]; simpl; [destruct s; reflexivity | exact IH].
Qed.

Lemma append_assoc (a b c : str) : (a ++ b) ++ c = a ++ (b ++ c).
Proof.
  induction a as [|x a IH]; simpl; [reflexivity | rewrite IH; reflexivity].
Qed.

(** *** path_exists *)

Lemma path_exists_run (p : str) (w : World) :
  path_exists p w =
  (Returns (match fs_ls (fs w) p with Ok _ => true | Err _ => false end),
   log (Ls p) w).
Proof.
  unfold path_exists, try_except, bind, dbutils_fs_ls, ret.
  destruct (fs_ls (fs w) p) as [files|e]; [|reflexivity].
  f_equal. f_equal. apply Z.geb_le. lia.
Qed.

(** C6.  [path_exists] never raises.  It returns [False] exactly when the
    listing raises, and [True] whenever the listing succeeds, the empty
    listing included; the only thing it does is the one call of
    [dbutils.fs.ls]. *)
Theorem path_exists_false_iff_ls_raises (p : str) (w : World) :
  (fst (path_exists p w) = Returns false <-> exists e, fs_ls (fs w) p = Err e)
  /\ (forall files, fs_ls (fs w) p = Ok files ->
        fst (path_exists p w) = Returns true)
  /\ (fs_ls (fs w) p = Ok [] -> fst (path_exists p w) = Returns true)
  /\ snd (path_exists p w) = log (Ls p) w.
Proof.
  rewrite path_exists_run. simpl.
  destruct (fs_ls (fs w) p) as [files|e]; repeat split;
    try congruence; try discriminate; eauto.
  intros [e H]. discriminate.
Qed.

(** *** list_r *)

Lemma list_r_defaults (fuel : nat) (p : str) :
  list_r fuel p None None = list_r fuel p (Some p) (Some []).
Proof. destruct fuel; reflexivity. Qed.

Lemma tree_at_mono (s : FS) (n : nat) (p : str) :
  tree_at s n p -> forall m, n <= m -> tree_at s m p.
Proof.
  induction 1 as [n p files Hls Hpre Hsub IH]; intros m Hm.
  destruct m as [|m]; [lia|].
  econstructor; eauto. intros f Hf Hd. apply IH; auto. lia.
Qed.

Lemma descendant_inv (s : FS) (p : str) (g : FileInfo) (files : list FileInfo) :
  fs_ls s p = Ok files ->
  (descendant s p g <->
   exists f, In f files /\
             (g = f \/ (isDir f = true /\ descendant s (path f) g))).
Proof.
  intros Hls. split.
  - intros H. inversion H as [p' files' f' Hls' Hin|p' files' d' g' Hls' Hin Hd Hg];
      subst; rewrite Hls in Hls'; injection Hls' as <-; eauto 6.
  - intros [f [Hin [->|[Hd Hg]]]].
    + eapply desc_child; eauto.
    + eapply desc_deeper; eauto.
Qed.

Lemma descendant_extends (s : FS) (p : str) (g : FileInfo) :
  descendant s p g -> forall n, tree_at s n p -> exists rest, path g = p ++ rest.
Proof.
  induction 1 as [p files f Hls Hin|p files d g Hls Hin Hd Hg IH]; intros n Ht;
    inversion Ht as [n' p' files' Hls' Hpre Hsub]; subst;
    rewrite Hls in Hls'; injection Hls' as <-.
  - apply Hpre. exact Hin.
  - destruct (IH _ (Hsub _ Hin Hd)) as [r2 E2].
    destruct (Hpre _ Hin) as [r1 E1].
    exists (r1 ++ r2). rewrite E2, E1. apply append_assoc.
Qed.

Lemma list_r_S (fuel : nat) (p : str) (prefix : str) (results : list str) :
  list_r (S fuel) p (Some prefix) (Some results) =
  (files <- dbutils_fs_ls p ;;
   results <- for_in files (list_r_body (list_r fuel) prefix) results ;;
   ret (sort results)).
Proof. reflexivity. Qed.

Lemma list_r_loop (fuel : nat) (prefix : str) (s : FS)
  (IH : forall p acc w, fs w = s -> tree_at s fuel p ->
        exists l w', list_r fuel p (Some prefix) (Some acc) w = (Returns l, w')
                     /\ fs w' = s /\ lists_below s prefix p acc l) :
  forall files acc w,
    fs w = s ->
    (forall f, In f files -> isDir f = true -> tree_at s fuel (path f)) ->
    exists l w',
      for_in files (list_r_body (list_r fuel) prefix) acc w = (Returns l, w')
      /\ fs w' = s
      /\ forall x, In x l <->
           In x acc \/
           exists f, In f files /\
             (x = slice_from (String.length prefix) (path f) \/
              (isDir f = true /\
               exists g, descendant s (path f) g /\
                         x = slice_from (String.length prefix) (path g))).
Proof.
  induction files as [|f files IHf]; intros acc w Hw Hsub.
  - exists acc, w. simpl. repeat split; auto.
    + intros [H|[f [[] _]]]. exact H.
  - simpl for_in. unfold bind at 1. unfold list_r_body at 1.
    destruct (isDir f) eqn:Hd.
    + destruct (IH (path f) (acc ++ [slice_from (String.length prefix) (path f)])%list
                  w Hw (Hsub f (or_introl eq_refl) Hd)) as [l1 [w1 [E1 [Hw1 Hl1]]]].
      rewrite E1.
      destruct (IHf l1 w1 Hw1 (fun f' Hf' => Hsub f' (or_intror Hf')))
        as [l2 [w2 [E2 [Hw2 Hl2]]]].
      exists l2, w2. repeat split; auto.
      * intros Hx. apply Hl2 in Hx. destruct Hx as [Hx|[f' [Hf' Hx]]].
        -- apply Hl1 in Hx. destruct Hx as [Hx|[g [Hg ->]]].
           ++ apply in_app_or in Hx. destruct Hx as [Hx|[<-|[]]]; [auto|].
              right. exists f. split; [left; reflexivity | left; reflexivity].
           ++ right. exists f. split; [left; reflexivity|]. right. eauto.
        -- right. exists f'. split; [right; exact Hf' | exact Hx].
      * intros Hx. apply Hl2. destruct Hx as [Hx|[f' [[<-|Hf'] Hx]]].
        -- left. apply Hl1. left. apply in_or_app. auto.
        -- left. apply Hl1. destruct Hx as [->|[_ [g [Hg ->]]]].
           ++ left. apply in_or_app. right. left. reflexivity.
           ++ right. eauto.
        -- right. eauto.
    + unfold ret at 1.
      destruct (IHf (acc ++ [slice_from (String.length prefix) (path f)])%list w Hw
                  (fun f' Hf' => Hsub f' (or_intror Hf')))
        as [l2 [w2 [E2 [Hw2 Hl2]]]].
      exists l2, w2. repeat split; auto.
      * intros Hx. apply Hl2 in Hx. destruct Hx as [Hx|[f' [Hf' Hx]]].
        -- apply in_app_or in Hx. destruct Hx as [Hx|[<-|[]]]; [auto|].
           right. exists f. split; [left; reflexivity | left; reflexivity].
        -- right. exists f'. split; [right; exact Hf' | exact Hx].
      * intros Hx. apply Hl2. destruct Hx as [Hx|[f' [[<-|Hf'] Hx]]].
        -- left. apply in_or_app. auto.
        -- destruct Hx as [->|[Hd' _]]; [|congruence].
           left. apply in_or_app. right. left. reflexivity.
        -- right. eauto.
Qed.

Lemma list_r_run (fuel : nat) (prefix : str) (s : FS) :
  forall p acc w, fs w = s -> tree_at s fuel p ->
    exists l w', list_r fuel p (Some prefix) (Some acc) w = (Returns l, w')
                 /\ fs w' = s /\ lists_below s prefix p acc l.
Proof.
  induction fuel as [|fuel IH]; intros p acc w Hw Ht.
  - inversion Ht.
  - inversion Ht as [n p' files Hls Hpre Hsub]; subst.
    rewrite list_r_S. unfold bind at 1, dbutils_fs_ls. rewrite Hls.
    destruct (list_r_loop fuel prefix (fs w) IH files acc (log (Ls p) w)
                eq_refl Hsub) as [l [w' [E [Hw' Hl]]]].
    unfold bind at 1. rewrite E. exists (sort l), w'. repeat split; auto.
    + intros Hx. apply sort_In, Hl in Hx. destruct Hx as [Hx|[f [Hf Hx]]]; [auto|].
      right. destruct Hx as [->|[Hd [g [Hg ->]]]].
      * exists f. split; [eapply desc_child; eauto | reflexivity].
      * exists g. split; [eapply desc_deeper; eauto | reflexivity].
    + intros Hx. apply sort_In, Hl. destruct Hx as [Hx|[g [Hg ->]]]; [auto|].
      right. apply (descendant_inv _ _ _ _ Hls) in Hg.
      destruct Hg as [f [Hf [->|[Hd Hg]]]]; exists f; eauto 7.
Qed.

Lemma list_r_is_sorted (fuel : nat) (p : str) (prefix : option str)
  (results : option (list str)) (w w' : World) (l : list str) :
  list_r fuel p prefix results w = (Returns l, w') -> exists l0, l = sort l0.
Proof.
  destruct fuel as [|fuel]; [discriminate|]. simpl.
  unfold bind, ret.
  destruct (dbutils_fs_ls p w) as [[files|e|] w1]; try discriminate.
  destruct (for_in files _ _ w1) as [[l0|e|] w2]; try discriminate.
  intros H. injection H as <- _. eauto.
Qed.

Lemma list_r_top (fuel : nat) (p : str) (w : World) :
  tree_at (fs w) fuel p ->
  exists l w',
    list_r fuel p None None w = (Returns l, w')
    /\ fs w' = fs w
    /\ StronglySorted str_le l
    /\ (forall x, In x l <-> listed_below (fs w) p x).
Proof.
  intros Ht. rewrite list_r_defaults.
  destruct (list_r_run fuel p (fs w) p [] w eq_refl Ht) as [l [w' [E [Hw' Hl]]]].
  exists l, w'. repeat split; auto.
  - destruct (list_r_is_sorted _ _ _ _ _ _ _ E) as [l0 ->].
    apply sort_strongly_sorted.
  - intros Hx. apply Hl in Hx. destruct Hx as [[]|[g [Hg ->]]].
    exists g. split; [exact Hg|].
    destruct (descendant_extends _ _ _ Hg _ Ht) as [r Hr].
    rewrite Hr at 2. rewrite slice_from_app. exact Hr.
  - intros [g [Hg Hx]]. apply Hl. right. exists g. split; [exact Hg|].
    rewrite Hx. symmetry. apply slice_from_app.
Qed.

(** C7.  Below a root [p] of a file system tree (of depth at most [fuel]),
    [list_r(p)] returns; it leaves the file system as it is; the list it
    returns is sorted in ascending order; it holds, for every transitive
    descendant of [p], file or directory, the path of the descendant with
    [p] stripped from the front; and it holds nothing else. *)
Theorem list_r_sorted_descendants (fuel : nat) (p : str) (w : World) :
  tree_at (fs w) fuel p ->
  exists l w',
    list_r fuel p None None w = (Returns l, w')
    /\ fs w' = fs w
    /\ StronglySorted str_le l
    /\ (forall g, descendant (fs w) p g ->
          exists x, path g = p ++ x /\ In x l)
    /\ (forall x, In x l -> exists g, descendant (fs w) p g /\ path g = p ++ x).
Proof.
  intros Ht. destruct (list_r_top fuel p w Ht) as [l [w' [E [Hw' [Hs Hl]]]]].
  exists l, w'. repeat split; auto.
  - intros g Hg. destruct (descendant_extends _ _ _ Hg _ Ht) as [x Hx].
    exists x. split; [exact Hx|]. apply Hl. exists g. auto.
  - intros x Hx. apply Hl. exact Hx.
Qed.

(** *** validate_datasets *)

(** One of the two loops of [validate_datasets]: [msg] is its message. *)
Lemma validate_loop (msg : str) (others xs : list str) (w : World) :
  let body := fun (file : str) (_ : unit) =>
    if negb (mem file others) then
      print (nl ++ msg ++ file) ;;
      print "  - This problem can be fixed by reinstalling the datasets" ;;
      raise validation_failed
    else ret tt in
  (forallb (fun x => mem x others) xs = true ->
   for_in xs body tt w = (Returns tt, w))
  /\ (forallb (fun x => mem x others) xs = false ->
      exists w', for_in xs body tt w = (Raises validation_failed, w')
                 /\ fs w' = fs w).
Proof.
  intros body. induction xs as [|x xs [IHt IHf]]; simpl.
  - split; [reflexivity | discriminate].
  - unfold bind. unfold body at 1 3. fold body.
    destruct (mem x others); simpl.
    + split; [exact IHt | exact IHf].
    + split; [discriminate|]. intros _. eexists. split; reflexivity.
Qed.

Lemma forallb_mem (l others : list str) :
  forallb (fun x => mem x others) l = true <->
  (forall x, In x l -> In x others).
Proof.
  rewrite forallb_forall. split; intros H x Hx; apply mem_In; auto.
Qed.

Lemma forallb_mem_false (l others : list str) :
  forallb (fun x => mem x others) l = false <->
  (exists x, In x l /\ ~ In x others).
Proof.
  split.
  - induction l as [|y l IH]; simpl; [discriminate|].
    destruct (mem y others) eqn:E; simpl.
    + intros H. destruct (IH H) as [x [Hx Hn]]. eauto.
    + intros _. exists y. split; [auto | apply mem_false; exact E].
  - intros [x [Hx Hn]].
    destruct (forallb (fun x => mem x others) l) eqn:E; [|reflexivity].
    exfalso. apply Hn. eapply forallb_mem; eauto.
Qed.

(** What [validate_datasets] does once both listings are there. *)
Lemma validate_datasets_run (fuel : nat) (w : World) :
  tree_at (fs w) fuel datasets_dir ->
  tree_at (fs w) fuel source_path ->
  exists local remote w',
    (forall x, In x local <-> listed_below (fs w) datasets_dir x)
    /\ (forall x, In x remote <-> listed_below (fs w) source_path x)
    /\ fs w' = fs w
    /\ validate_datasets fuel w =
       (if forallb (fun x => mem x remote) local
           && forallb (fun x => mem x local) remote
        then Returns tt else Raises validation_failed, w').
Proof.
  intros Hl Hr. unfold validate_datasets.
  unfold bind at 1. unfold time_time at 1.
  unfold bind at 1. unfold print_end at 1.
  set (w0 := log _ (log Time w)).
  destruct (list_r_top fuel datasets_dir w0 Hl) as [local [w1 [E1 [Hw1 [_ Hin1]]]]].
  assert (Hr1 : tree_at (fs w1) fuel source_path) by (rewrite Hw1; exact Hr).
  destruct (list_r_top fuel source_path w1 Hr1) as [remote [w2 [E2 [Hw2 [_ Hin2]]]]].
  rewrite Hw1 in Hin2.
  unfold bind at 1. rewrite E1. unfold bind at 1. rewrite E2.
  exists local, remote.
  destruct (validate_loop "  - Found extra file: " remote local w2) as [Ha Hb].
  destruct (validate_loop "  - Missing file: " local remote w2) as [Hc Hd].
  cbv zeta in Ha, Hb, Hc, Hd.
  unfold bind at 1.
  destruct (forallb (fun x => mem x remote) local) eqn:F1.
  - rewrite (Ha eq_refl). unfold bind at 1.
    destruct (forallb (fun x => mem x local) remote) eqn:F2.
    + rewrite (Hc eq_refl).
      eexists. split; [exact Hin1 | split; [exact Hin2 | split; [|reflexivity]]].
      simpl. rewrite Hw2, Hw1. reflexivity.
    + destruct (Hd eq_refl) as [w3 [E3 Hw3]]. rewrite E3.
      exists w3. split; [exact Hin1 | split; [exact Hin2 | split; [|reflexivity]]].
      rewrite Hw3, Hw2, Hw1. reflexivity.
  - destruct (Hb eq_refl) as [w3 [E3 Hw3]]. rewrite E3.
    exists w3. split; [exact Hin1 | split; [exact Hin2 | split; [|reflexivity]]].
    rewrite Hw3, Hw2, Hw1. reflexivity.
Qed.

(** C1.  For a local datasets directory and a remote source that both
    root a tree, [validate_datasets] raises exactly when some relative
    path is in one of the two recursive listings and not in the other,
    and it returns exactly when the two listings hold the same relative
    paths.  It does one or the other, and never changes the file system. *)
Theorem validate_datasets_raises_iff_listings_differ (fuel : nat) (w : World) :
  tree_at (fs w) fuel datasets_dir ->
  tree_at (fs w) fuel source_path ->
  (fst (validate_datasets fuel w) = Raises validation_failed <->
   exists x,
     (listed_below (fs w) datasets_dir x /\ ~ listed_below (fs w) source_path x)
     \/ (listed_below (fs w) source_path x /\ ~ listed_below (fs w) datasets_dir x))
  /\ (fst (validate_datasets fuel w) = Returns tt <->
      forall x, listed_below (fs w) datasets_dir x <->
                listed_below (fs w) source_path x)
  /\ (fst (validate_datasets fuel w) = Returns tt
      \/ fst (validate_datasets fuel w) = Raises validation_failed)
  /\ fs (snd (validate_datasets fuel w)) = fs w.
Proof.
  intros Hl Hr.
  destruct (validate_datasets_run fuel w Hl Hr)
    as [local [remote [w' [Hin1 [Hin2 [Hw' E]]]]]].
  rewrite E. simpl. rewrite Hw'.
  assert (Hsame : forallb (fun x => mem x remote) local
                  && forallb (fun x => mem x local) remote = true <->
                  forall x, listed_below (fs w) datasets_dir x <->
                            listed_below (fs w) source_path x).
  { rewrite andb_true_iff, !forallb_mem. split.
    - intros [F1 F2] x. rewrite <- Hin1, <- Hin2. split; auto.
    - intros H. split; intros x Hx.
      + apply Hin2, H, Hin1, Hx.
      + apply Hin1, H, Hin2, Hx. }
  assert (Hdiff : forallb (fun x => mem x remote) local
                  && forallb (fun x => mem x local) remote = false <->
                  exists x,
                    (listed_below (fs w) datasets_dir x
                     /\ ~ listed_below (fs w) source_path x)
                    \/ (listed_below (fs w) source_path x
                        /\ ~ listed_below (fs w) datasets_dir x)).
  { rewrite andb_false_iff, !forallb_mem_false. split.
    - intros [[x [Hx Hn]]|[x [Hx Hn]]]; exists x; [left|right];
        rewrite <- Hin1, <- Hin2; auto.
    - intros [x [[Hx Hn]|[Hx Hn]]]; [left|right]; exists x;
        rewrite Hin1, Hin2; auto. }
  destruct (forallb (fun x => mem x remote) local
            && forallb (fun x => mem x local) remote).
  - split; [|split; [|split; [left|]; reflexivity]].
    + split; [discriminate|]. intros H. apply Hdiff in H. discriminate.
    + split; [intros _; apply Hsame; reflexivity | reflexivity].
  - split; [|split; [|split; [right|]; reflexivity]].
    + split; [intros _; apply Hdiff; reflexivity | reflexivity].
    + split; [discriminate|]. intros H. apply Hsame in H. discriminate.
Qed.

(** *** install_datasets *)

Ltac run_prints :=
  cbv [bind print print_end ret raise lift_fs dbutils_fs_rm dbutils_fs_cp
       dbutils_fs_mkdirs dbutils_widgets_get time_time].

Ltac trace_shape :=
  eexists; split;
  [ cbv [log trace]; rewrite <- !app_assoc; cbn [app]; reflexivity
  | reflexivity ].

Lemma install_datasets_skips (w : World) (files : list FileInfo) :
  fs_ls (fs w) datasets_dir = Ok files ->
  exists w', install_datasets false w = (Returns tt, w')
             /\ fs w' = fs w
             /\ fs_calls_between w w' [Ls datasets_dir].
Proof.
  intros Hls. unfold install_datasets. run_prints.
  rewrite path_exists_run. cbn [log fs]. rewrite Hls. cbn [negb andb].
  eexists. split; [reflexivity|]. split; [reflexivity|]. trace_shape.
Qed.

Lemma install_datasets_fresh (reinstall : bool) (w : World) (e : exn) :
  fs_ls (fs w) datasets_dir = Err e ->
  exists w', install_datasets reinstall w =
               (finish (fst (fs_cp (fs w) source_path datasets_dir true)), w')
             /\ fs w' = snd (fs_cp (fs w) source_path datasets_dir true)
             /\ fs_calls_between w w'
                  [Ls datasets_dir; Cp source_path datasets_dir true].
Proof.
  intros Hls. unfold install_datasets. run_prints.
  rewrite path_exists_run. cbn [log fs]. rewrite Hls.
  rewrite andb_false_r. cbn [log fs].
  destruct (fs_cp (fs w) source_path datasets_dir true) as [[b|x] s'];
    cbn [fst snd finish];
    (eexists; split; [reflexivity|]; split; [reflexivity|]; trace_shape).
Qed.

Lemma install_datasets_reinstalls (w : World) (files : list FileInfo) :
  fs_ls (fs w) datasets_dir = Ok files ->
  let removed := fs_rm (fs w) datasets_dir true in
  let copied := fs_cp (snd removed) source_path datasets_dir true in
  exists w',
    match fst removed with
    | Ok _ =>
        install_datasets true w = (finish (fst copied), w')
        /\ fs w' = snd copied
        /\ fs_calls_between w w'
             [Ls datasets_dir; Rm datasets_dir true;
              Cp source_path datasets_dir true]
    | Err x =>
        install_datasets true w = (Raises x, w')
        /\ fs w' = snd removed
        /\ fs_calls_between w w' [Ls datasets_dir; Rm datasets_dir true]
    end.
Proof.
  intros Hls removed copied. subst removed copied.
  unfold install_datasets. run_prints.
  rewrite path_exists_run. cbn [log fs]. rewrite Hls. cbn [negb andb log fs].
  destruct (fs_rm (fs w) datasets_dir true) as [[b|x] s1]; cbn [fst snd fs].
  - destruct (fs_cp s1 source_path datasets_dir true) as [[b'|x] s2];
      cbn [fst snd finish];
      (eexists; split; [reflexivity|]; split; [reflexivity|]; trace_shape).
  - eexists; split; [reflexivity|]; split; [reflexivity|]; trace_shape.
Qed.

(** C2.  [install_datasets] copies conditionally.  With [reinstall] false
    and a target directory that exists (it can be listed), it returns
    after the one listing: nothing is removed, nothing is copied, the file
    system is as before.  Otherwise it removes the target directory when
    it exists.  If the removal returns, it copies [source_path] to the
    target directory recursively, and the outcome and the final file
    system are those of the copy.  If the removal raises, its exception
    leaves [install_datasets] and nothing is copied.  A target that does
    not exist is not removed, and the copy is made. *)
Theorem install_datasets_conditional_copy (reinstall : bool) (w : World) :
  (forall files,
      reinstall = false -> fs_ls (fs w) datasets_dir = Ok files ->
      exists w', install_datasets reinstall w = (Returns tt, w')
                 /\ fs w' = fs w
                 /\ fs_calls_between w w' [Ls datasets_dir])
  /\ (forall files b s1,
      reinstall = true -> fs_ls (fs w) datasets_dir = Ok files ->
      fs_rm (fs w) datasets_dir true = (Ok b, s1) ->
      exists w', install_datasets reinstall w =
                   (finish (fst (fs_cp s1 source_path datasets_dir true)), w')
                 /\ fs w' = snd (fs_cp s1 source_path datasets_dir true)
                 /\ fs_calls_between w w'
                      [Ls datasets_dir; Rm datasets_dir true;
                       Cp source_path datasets_dir true])
  /\ (forall files x s1,
      reinstall = true -> fs_ls (fs w) datasets_dir = Ok files ->
      fs_rm (fs w) datasets_dir true = (Err x, s1) ->
      exists w', install_datasets reinstall w = (Raises x, w')
                 /\ fs w' = s1
                 /\ fs_calls_between w w'
                      [Ls datasets_dir; Rm datasets_dir true])
  /\ (forall e,
      fs_ls (fs w) datasets_dir = Err e ->
      exists w', install_datasets reinstall w =
                   (finish (fst (fs_cp (fs w) source_path datasets_dir true)), w')
                 /\ fs w' = snd (fs_cp (fs w) source_path datasets_dir true)
                 /\ fs_calls_between w w'
                      [Ls datasets_dir; Cp source_path datasets_dir true]).
Proof.
  split; [|split; [|split]].
  - intros files -> Hls. eapply install_datasets_skips; eauto.
  - intros files b s1 -> Hls Hrm.
    pose proof (install_datasets_reinstalls w files Hls) as H.
    cbv zeta in H. rewrite Hrm in H. exact H.
  - intros files x s1 -> Hls Hrm.
    pose proof (install_datasets_reinstalls w files Hls) as H.
    cbv zeta in H. rewrite Hrm in H. exact H.
  - intros e Hls. apply install_datasets_fresh with (e := e). exact Hls.
Qed.

(** *** What a run may do to the world *)

Section Invariants.

Variable R : World -> World -> Prop.
Hypothesis R_refl : forall w, R w w.
Hypothesis R_trans : forall a b c, R a b -> R b c -> R a c.

Lemma respects_ret {A} (a : A) : respects R (ret a).
Proof. intros w. apply R_refl. Qed.

Lemma respects_raise {A} (e : exn) : respects R (@raise World A e).
Proof. intros w. apply R_refl. Qed.

Lemma respects_out_of_fuel {A} : respects R (@out_of_fuel World A).
Proof. intros w. apply R_refl. Qed.

Lemma respects_bind {A B} (m : M World A) (k : A -> M World B) :
  respects R m -> (forall a, respects R (k a)) -> respects R (bind m k).
Proof.
  intros Hm Hk w. unfold bind. specialize (Hm w).
  destruct (m w) as [[a|e|] w1]; simpl in *; auto.
  eapply R_trans; [exact Hm | apply Hk].
Qed.

Lemma respects_try_except {A} (body handler : M World A) :
  respects R body -> respects R handler -> respects R (try_except body handler).
Proof.
  intros Hb Hh w. unfold try_except. specialize (Hb w).
  destruct (body w) as [[a|e|] w1]; simpl in *; auto.
  eapply R_trans; [exact Hb | apply Hh].
Qed.

Lemma respects_for_in {A L} (xs : list A) (body : A -> L -> M World L) :
  (forall x acc, respects R (body x acc)) ->
  forall acc, respects R (for_in xs body acc).
Proof.
  intros Hb. induction xs as [|x xs IH]; intros acc; simpl.
  - apply respects_ret.
  - apply respects_bind; [apply Hb | exact IH].
Qed.

End Invariants.

Lemma extends_refl (P : event -> Prop) (w : World) : extends P w w.
Proof. exists []. split; [symmetry; apply app_nil_r | constructor]. Qed.

Lemma extends_trans (P : event -> Prop) (a b c : World) :
  extends P a b -> extends P b c -> extends P a c.
Proof.
  intros [e1 [E1 F1]] [e2 [E2 F2]]. exists (e1 ++ e2)%list. split.
  - rewrite E2, E1. symmetry. apply app_assoc.
  - apply Forall_app. split; assumption.
Qed.

Lemma extends_log (P : event -> Prop) (e : event) (w : World) :
  P e -> extends P w (log e w).
Proof. intros H. exists [e]. split; [reflexivity | repeat constructor; exact H]. Qed.

Lemma only_read_refl (w : World) : only_read w w.
Proof. split; [reflexivity | apply extends_refl]. Qed.

Lemma only_read_trans (a b c : World) :
  only_read a b -> only_read b c -> only_read a c.
Proof.
  intros [F1 E1] [F2 E2]. split; [congruence | eapply extends_trans; eauto].
Qed.

Lemma only_read_log (e : event) (w : World) :
  is_rm_or_cp e = false -> only_read w (log e w).
Proof. intros H. split; [reflexivity | apply extends_log; exact H]. Qed.

(** The platform calls, one relation at a time. *)

Lemma grows_ls (p : str) : respects (extends (fun _ => True)) (dbutils_fs_ls p).
Proof.
  intros w. unfold dbutils_fs_ls.
  destruct (fs_ls (fs w) p); apply extends_log; exact I.
Qed.

Lemma grows_lift_fs (e : event) (call : FS -> result bool * FS) :
  respects (extends (fun _ => True)) (lift_fs e call).
Proof.
  intros w. unfold lift_fs. exists [e].
  destruct (call (fs w)) as [[b|x] s']; (split; [reflexivity | repeat constructor]).
Qed.

Lemma grows_widgets_get (name : str) : respects (extends (fun _ => True)) (dbutils_widgets_get name).
Proof.
  intros w. unfold dbutils_widgets_get.
  destruct (widgets_get name); apply extends_log; exact I.
Qed.

Lemma grows_time : respects (extends (fun _ => True)) time_time.
Proof. intros w. apply extends_log. exact I. Qed.

Lemma grows_print_end (text e : str) : respects (extends (fun _ => True)) (print_end text e).
Proof. intros w. apply extends_log. exact I. Qed.

Lemma reads_ls (p : str) : respects only_read (dbutils_fs_ls p).
Proof.
  intros w. unfold dbutils_fs_ls.
  destruct (fs_ls (fs w) p); apply only_read_log; reflexivity.
Qed.

Lemma reads_time : respects only_read time_time.
Proof. intros w. apply only_read_log. reflexivity. Qed.

Lemma reads_print_end (text e : str) : respects only_read (print_end text e).
Proof. intros w. apply only_read_log. reflexivity. Qed.

Create HintDb world.
#[local] Hint Resolve extends_refl extends_trans only_read_refl only_read_trans
  : world.
#[local] Hint Resolve grows_ls grows_lift_fs grows_widgets_get grows_time
  grows_print_end reads_ls reads_time reads_print_end : world.
#[local] Hint Unfold grows print dbutils_fs_rm dbutils_fs_cp dbutils_fs_mkdirs
  : world.

(** Walks through binds, handlers, loops and branches down to the
    platform calls. *)
Ltac respects_steps :=
  repeat first
    [ apply respects_ret; solve [eauto with world]
    | apply respects_raise; solve [eauto with world]
    | apply respects_out_of_fuel; solve [eauto with world]
    | apply respects_bind; [solve [eauto with world] | | intros ?]
    | apply respects_try_except; [solve [eauto with world] | | ]
    | apply respects_for_in; [solve [eauto with world] | solve [eauto with world] | intros ? ?]
    | match goal with |- respects _ (if ?b then _ else _) => destruct b end
    | solve [autounfold with world; auto with world] ].

Lemma grows_path_exists (p : str) : grows (path_exists p).
Proof. unfold grows, path_exists. respects_steps. Qed.

Lemma grows_install_datasets (reinstall : bool) :
  grows (install_datasets reinstall).
Proof.
  unfold grows, install_datasets.
  apply respects_bind; [eauto with world | autounfold with world; auto with world | intros _].
  apply respects_bind; [eauto with world | autounfold with world; auto with world | intros _].
  apply respects_bind; [eauto with world | apply grows_path_exists | intros existing].
  destruct (negb reinstall && existing); [autounfold with world; auto with world|].
  respects_steps.
Qed.

Lemma grows_list_r (fuel : nat) :
  forall p prefix results, grows (list_r fuel p prefix results).
Proof.
  unfold grows.
  induction fuel as [|fuel IH]; intros p prefix results; simpl.
  - apply respects_out_of_fuel. eauto with world.
  - respects_steps; try apply IH.
Qed.

Lemma reads_list_r (fuel : nat) :
  forall p prefix results, respects only_read (list_r fuel p prefix results).
Proof.
  induction fuel as [|fuel IH]; intros p prefix results; simpl.
  - apply respects_out_of_fuel. eauto with world.
  - respects_steps; try apply IH.
Qed.

Lemma grows_validate_from (fuel : nat) (start : Z) :
  grows (validate_from fuel start).
Proof.
  unfold grows, validate_from.
  apply respects_bind; [eauto with world | apply grows_list_r | intros local_files].
  apply respects_bind; [eauto with world | apply grows_list_r | intros remote_files].
  respects_steps.
Qed.

Lemma reads_validate_from (fuel : nat) (start : Z) :
  respects only_read (validate_from fuel start).
Proof.
  unfold validate_from.
  apply respects_bind; [eauto with world | apply reads_list_r | intros local_files].
  apply respects_bind; [eauto with world | apply reads_list_r | intros remote_files].
  respects_steps.
Qed.

Lemma validate_datasets_unfold (fuel : nat) :
  validate_datasets fuel =
  (start <- time_time ;;
   print_end (nl ++ "Validating the local copy of the datsets") "..." ;;
   validate_from fuel start).
Proof. reflexivity. Qed.

Lemma reads_validate_datasets (fuel : nat) :
  respects only_read (validate_datasets fuel).
Proof.
  rewrite validate_datasets_unfold.
  apply respects_bind; [eauto with world | apply reads_time | intros start].
  apply respects_bind; [eauto with world | apply reads_print_end | intros _].
  apply reads_validate_from.
Qed.

(** Every run of [validate_datasets] starts by reading the clock and
    printing its banner. *)
Lemma validate_datasets_announces (fuel : nat) (w : World) :
  exists evs,
    trace (snd (validate_datasets fuel w)) =
    (trace w ++ Time :: validation_banner :: evs)%list.
Proof.
  rewrite validate_datasets_unfold.
  unfold bind at 1. unfold time_time at 1.
  unfold bind at 1. unfold print_end at 1.
  match goal with
  | |- context [snd (validate_from fuel ?start ?w0)] =>
      destruct (grows_validate_from fuel start w0) as [evs [E _]]
  end.
  exists evs. rewrite E. cbv [log trace]. rewrite <- !app_assoc. reflexivity.
Qed.

(** *** The installation cell *)

Lemma first_attempt_run (w : World) :
  first_attempt w =
  match widgets_get "reinstall" with
  | Ok v => install_datasets (String.eqb (lower v) "true")
              (log (WidgetGet "reinstall") w)
  | Err e => (Raises e, log (WidgetGet "reinstall") w)
  end.
Proof.
  unfold first_attempt, bind, dbutils_widgets_get.
  destruct (widgets_get "reinstall") as [v|e]; [|reflexivity].
  destruct (install_datasets _ _) as [[[]|e|] w1]; reflexivity.
Qed.

Lemma install_datasets_has_fuel (reinstall : bool) (w : World) :
  fst (install_datasets reinstall w) <> OutOfFuel.
Proof.
  unfold install_datasets. run_prints. rewrite path_exists_run.
  destruct (negb reinstall && _); [discriminate|].
  destruct (fs_ls _ _); cbn [log fs].
  - destruct (fs_rm _ _ _) as [[b|x] s1]; [|discriminate].
    destruct (fs_cp _ _ _ _) as [[b'|x] s2]; discriminate.
  - destruct (fs_cp _ _ _ _) as [[b'|x] s2]; discriminate.
Qed.

(** C3, as the code has it.  The installation is best effort: when the
    read of the widget [reinstall] raises, or the first call of
    [install_datasets] raises, [install_datasets(reinstall=False)] runs
    as the fallback, in the state the failed attempt left behind.
    [validate_datasets] runs afterwards whenever the first attempt or the
    fallback has returned: the cell goes on with its clock reading and
    its banner.  When the fallback raises too, its exception leaves the
    cell and [validate_datasets] does not run. *)
Theorem setup_cell_falls_back_then_validates (fuel : nat) (w : World) :
  (forall e,
      widgets_get "reinstall" = Err e ->
      setup_cell fuel w =
      (install_datasets false ;; validate_datasets fuel)
        (log (WidgetGet "reinstall") w))
  /\ (forall v e w1,
      widgets_get "reinstall" = Ok v ->
      install_datasets (String.eqb (lower v) "true")
        (log (WidgetGet "reinstall") w) = (Raises e, w1) ->
      setup_cell fuel w = (install_datasets false ;; validate_datasets fuel) w1)
  /\ (forall w1,
      first_attempt w = (Returns tt, w1) ->
      setup_cell fuel w = validate_datasets fuel w1)
  /\ (forall e w1 w2,
      first_attempt w = (Raises e, w1) ->
      install_datasets false w1 = (Returns tt, w2) ->
      setup_cell fuel w = validate_datasets fuel w2)
  /\ (forall e w1 e' w2,
      first_attempt w = (Raises e, w1) ->
      install_datasets false w1 = (Raises e', w2) ->
      setup_cell fuel w = (Raises e', w2))
  /\ (forall w2,
      install_cell w = (Returns tt, w2) ->
      exists evs,
        trace (snd (setup_cell fuel w)) =
        (trace w2 ++ Time :: validation_banner :: evs)%list).
Proof.
  split; [|split; [|split; [|split; [|split]]]];
    unfold setup_cell, install_cell, try_except, bind.
  - rewrite first_attempt_run. intros e ->. reflexivity.
  - rewrite first_attempt_run. intros v e w1 -> ->. reflexivity.
  - intros w1 ->. reflexivity.
  - intros e w1 w2 -> ->. reflexivity.
  - intros e w1 e' w2 -> ->. reflexivity.
  - intros w2 H. rewrite H. apply validate_datasets_announces.
Qed.

(** *** The set-up, read off the file system *)

Lemma on_fs_eq {A} (r : outcome A * World) (o : outcome A) (s : FS) :
  on_fs r = (o, s) -> exists w', r = (o, w') /\ fs w' = s.
Proof.
  destruct r as [o' w']. unfold on_fs. simpl. intros H.
  injection H as -> <-. eauto.
Qed.

Lemma install_datasets_on_fs (reinstall : bool) (w : World) :
  on_fs (install_datasets reinstall w) = install_fs reinstall (fs w).
Proof.
  unfold install_fs. destruct (fs_ls (fs w) datasets_dir) as [files|e] eqn:Hls.
  - destruct reinstall.
    + pose proof (install_datasets_reinstalls w files Hls) as H. cbv zeta in H.
      destruct H as [w' H].
      destruct (fs_rm (fs w) datasets_dir true) as [[b|x] s1]; cbn [fst snd] in H.
      * destruct H as [E [F _]]. rewrite E. unfold on_fs. cbn [fst snd].
        rewrite F. destruct (fs_cp s1 _ _ _); reflexivity.
      * destruct H as [E [F _]]. rewrite E. unfold on_fs. cbn [fst snd].
        rewrite F. reflexivity.
    + destruct (install_datasets_skips w files Hls) as [w' [E [F _]]].
      rewrite E. unfold on_fs. cbn [fst snd]. rewrite F. reflexivity.
  - destruct (install_datasets_fresh reinstall w e Hls) as [w' [E [F _]]].
    rewrite E. unfold on_fs. cbn [fst snd]. rewrite F.
    destruct (fs_cp (fs w) _ _ _); reflexivity.
Qed.

Lemma install_cell_on_fs (w : World) :
  on_fs (install_cell w) = install_cell_fs (fs w).
Proof.
  unfold install_cell, try_except, install_cell_fs. rewrite first_attempt_run.
  destruct (widgets_get "reinstall") as [v|e].
  - rewrite <- (install_datasets_on_fs _ (log (WidgetGet "reinstall") w)).
    destruct (install_datasets _ (log _ w)) as [[[]|x|] w1] eqn:E;
      unfold on_fs; cbn [fst snd]; try reflexivity.
    apply install_datasets_on_fs.
  - exact (install_datasets_on_fs false (log (WidgetGet "reinstall") w)).
Qed.

Lemma make_directories_on_fs (w : World) :
  on_fs (make_directories w) = make_directories_fs (fs w).
Proof.
  unfold make_directories, make_directories_fs. run_prints.
  destruct (fs_mkdirs (fs w) userhome) as [[b1|x] s1]; cbn [fs]; [|reflexivity].
  destruct (fs_mkdirs s1 course_dir) as [[b2|x] s2]; cbn [fs]; [|reflexivity].
  destruct (fs_mkdirs s2 working_dir) as [[b3|x] s3]; reflexivity.
Qed.

Lemma bind_returns {A B} (m : M World A) (k : A -> M World B)
  (w w' : World) (b : B) :
  bind m k w = (Returns b, w') ->
  exists a w1, m w = (Returns a, w1) /\ k a w1 = (Returns b, w').
Proof.
  unfold bind. destruct (m w) as [[a|e|] w1]; try discriminate. eauto.
Qed.

(** *** Outcomes that depend on the file system only *)

Lemma same_ret {A} (a : A) : same_on_fs (ret a) (ret a).
Proof. intros w w' H. split; [reflexivity | exact H]. Qed.

Lemma same_raise {A} (e : exn) : same_on_fs (@raise World A e) (raise e).
Proof. intros w w' H. split; [reflexivity | exact H]. Qed.

Lemma same_bind {A B} (m m' : M World A) (k k' : A -> M World B) :
  same_on_fs m m' -> (forall a, same_on_fs (k a) (k' a)) ->
  same_on_fs (bind m k) (bind m' k').
Proof.
  intros Hm Hk w w' H. unfold bind. destruct (Hm w w' H) as [E F].
  destruct (m w) as [[a|e|] w1], (m' w') as [[a'|e'|] w1'];
    simpl in *; try discriminate; try (injection E as <-); auto.
  apply Hk. exact F.
Qed.

Lemma same_for_in {A L} (xs : list A) (body body' : A -> L -> M World L) :
  (forall x acc, same_on_fs (body x acc) (body' x acc)) ->
  forall acc, same_on_fs (for_in xs body acc) (for_in xs body' acc).
Proof.
  intros Hb. induction xs as [|x xs IH]; intros acc; simpl.
  - apply same_ret.
  - apply same_bind; [apply Hb | exact IH].
Qed.

Lemma same_ls (p : str) : same_on_fs (dbutils_fs_ls p) (dbutils_fs_ls p).
Proof.
  intros w w' H. unfold dbutils_fs_ls. rewrite <- H.
  destruct (fs_ls (fs w) p); split; simpl; auto.
Qed.

Lemma same_print (text text' : str) : same_on_fs (print text) (print text').
Proof. intros w w' H. split; [reflexivity | exact H]. Qed.

Lemma same_list_r (fuel : nat) :
  forall p prefix results,
    same_on_fs (list_r fuel p prefix results) (list_r fuel p prefix results).
Proof.
  induction fuel as [|fuel IH]; intros p prefix results; simpl.
  - intros w w' H. split; [reflexivity | exact H].
  - apply same_bind; [apply same_ls | intros files].
    apply same_bind; [|intros l; apply same_ret].
    apply same_for_in. intros file acc.
    destruct (isDir file); [apply IH | apply same_ret].
Qed.

Lemma same_validate_loop (msg : str) (others xs : list str) :
  same_on_fs
    (for_in xs
       (fun file _ =>
          if negb (mem file others) then
            print (nl ++ msg ++ file) ;;
            print "  - This problem can be fixed by reinstalling the datasets" ;;
            raise validation_failed
          else ret tt) tt)
    (for_in xs
       (fun file _ =>
          if negb (mem file others) then
            print (nl ++ msg ++ file) ;;
            print "  - This problem can be fixed by reinstalling the datasets" ;;
            raise validation_failed
          else ret tt) tt).
Proof.
  apply same_for_in. intros file [].
  destruct (negb (mem file others)); [|apply same_ret].
  apply same_bind; [apply same_print | intros _].
  apply same_bind; [apply same_print | intros _].
  apply same_raise.
Qed.

(** The clock shows in what [validate_datasets] prints, not in what it
    does. *)
Lemma same_validate_from (fuel : nat) (start start' : Z) :
  same_on_fs (validate_from fuel start) (validate_from fuel start').
Proof.
  unfold validate_from.
  apply same_bind; [apply same_list_r | intros local_files].
  apply same_bind; [apply same_list_r | intros remote_files].
  apply same_bind; [apply (same_validate_loop "  - Found extra file: ") | intros _].
  apply same_bind; [apply (same_validate_loop "  - Missing file: ") | intros _].
  intros w w' H. split; [reflexivity | exact H].
Qed.

Lemma same_validate_datasets (fuel : nat) :
  same_on_fs (validate_datasets fuel) (validate_datasets fuel).
Proof.
  intros w w' H. rewrite validate_datasets_unfold.
  unfold bind at 1 3. unfold time_time at 1 2.
  unfold bind at 1 3. unfold print_end at 1 2.
  apply same_validate_from. exact H.
Qed.

(** *** Running the set-up twice *)

Section Idempotence.

Variable is_dir : FS -> str -> Prop.
Hypothesis mkdirs_laws : mkdirs_contract is_dir.
Hypothesis cp_laws : cp_contract is_dir.

Lemma install_fs_skips (s : FS) (files : list FileInfo) :
  fs_ls s datasets_dir = Ok files -> install_fs false s = (Returns tt, s).
Proof. intros H. unfold install_fs. rewrite H. reflexivity. Qed.

Lemma install_fs_false_returns (s s' : FS) :
  install_fs false s = (Returns tt, s') ->
  dirs_exist is_dir s ->
  dirs_exist is_dir s'
  /\ (exists files, fs_ls s' datasets_dir = Ok files)
  /\ install_fs false s' = (Returns tt, s').
Proof.
  destruct cp_laws as [cp_creates cp_keeps].
  unfold install_fs at 1.
  destruct (fs_ls s datasets_dir) as [files|e] eqn:Hls.
  - intros H Hd. injection H as <-. split; [exact Hd|]. split; [eauto|].
    eapply install_fs_skips; eauto.
  - destruct (fs_cp s source_path datasets_dir true) as [[b|x] s2] eqn:Ecp;
      simpl; intros H Hd; [|discriminate].
    injection H as <-. destruct (cp_creates _ _ _ Ecp) as [files Hfiles].
    split; [eapply cp_keeps; eauto|]. split; [eauto|].
    eapply install_fs_skips; eauto.
Qed.

Lemma install_fs_false_raises (s s' : FS) (e : exn) :
  install_fs false s = (Raises e, s') ->
  dirs_exist is_dir s -> dirs_exist is_dir s'.
Proof.
  destruct cp_laws as [cp_creates cp_keeps].
  unfold install_fs.
  destruct (fs_ls s datasets_dir) as [files|x] eqn:Hls; [discriminate|].
  destruct (fs_cp s source_path datasets_dir true) as [[b|y] s2] eqn:Ecp;
    simpl; intros H Hd; [discriminate|].
  injection H as _ <-. eapply cp_keeps; eauto.
Qed.

Hypothesis no_reinstall : reinstall_requested = false.

Lemma install_cell_fs_stable (s s' : FS) :
  install_cell_fs s = (Returns tt, s') ->
  dirs_exist is_dir s ->
  dirs_exist is_dir s'
  /\ (exists files, fs_ls s' datasets_dir = Ok files)
  /\ install_cell_fs s' = (Returns tt, s').
Proof.
  pose proof no_reinstall as Hno.
  unfold install_cell_fs, reinstall_requested in *.
  destruct (widgets_get "reinstall") as [v|e].
  2:{ intros H Hd. exact (install_fs_false_returns s s' H Hd). }
  rewrite Hno.
  destruct (install_fs false s) as [[[]|e|] s1] eqn:E1; intros H Hd.
  - injection H as <-.
    destruct (install_fs_false_returns _ _ E1 Hd) as [Hd' [Hls' E']].
    split; [exact Hd'|]. split; [exact Hls'|]. rewrite E'. reflexivity.
  - pose proof (install_fs_false_raises _ _ _ E1 Hd) as Hd1.
    destruct (install_fs_false_returns _ _ H Hd1) as [Hd' [Hls' E']].
    split; [exact Hd'|]. split; [exact Hls'|]. rewrite E'. reflexivity.
  - discriminate.
Qed.

Lemma make_directories_fs_creates (s s' : FS) :
  make_directories_fs s = (Returns tt, s') -> dirs_exist is_dir s'.
Proof.
  destruct mkdirs_laws as [mk_existing [mk_creates mk_keeps]].
  unfold make_directories_fs.
  destruct (fs_mkdirs s userhome) as [[b1|x] s1] eqn:E1; [|discriminate].
  destruct (fs_mkdirs s1 course_dir) as [[b2|x] s2] eqn:E2; [|discriminate].
  destruct (fs_mkdirs s2 working_dir) as [[b3|x] s3] eqn:E3; [|discriminate].
  intros H. injection H as <-.
  intros q [<-|[<-|[<-|[]]]]; eauto.
Qed.

Lemma make_directories_fs_existing (s : FS) :
  dirs_exist is_dir s -> make_directories_fs s = (Returns tt, s).
Proof.
  destruct mkdirs_laws as [mk_existing _]. intros Hd.
  unfold make_directories_fs.
  destruct (mk_existing s userhome) as [b1 ->]; [apply Hd; simpl; auto|].
  destruct (mk_existing s course_dir) as [b2 ->]; [apply Hd; simpl; auto|].
  destruct (mk_existing s working_dir) as [b3 ->]; [apply Hd; simpl; auto|].
  reflexivity.
Qed.

Lemma fs_calls_without_rm_or_cp (w w' : World) (calls : list event) :
  fs_calls_between w w' calls ->
  forallb (fun e => negb (is_rm_or_cp e)) calls = true ->
  extends (fun e => is_rm_or_cp e = false) w w'.
Proof.
  intros [evs [E F]] Hc. exists evs. split; [exact E|].
  apply Forall_forall. intros e He.
  destruct (is_rm_or_cp e) eqn:Hrc; [|reflexivity].
  assert (Hin : In e calls).
  { rewrite <- F. apply filter_In. split; [exact He|].
    destruct e; simpl in *; congruence. }
  rewrite forallb_forall in Hc. apply Hc in Hin. rewrite Hrc in Hin.
  discriminate.
Qed.

Lemma quiet_lift_fs (e : event) (call : FS -> result bool * FS) :
  is_rm_or_cp e = false ->
  respects (extends (fun e => is_rm_or_cp e = false)) (lift_fs e call).
Proof.
  intros He w. unfold lift_fs. exists [e].
  destruct (call (fs w)) as [[b|x] s']; (split; [reflexivity | repeat constructor; exact He]).
Qed.

Lemma quiet_make_directories :
  respects (extends (fun e => is_rm_or_cp e = false)) make_directories.
Proof.
  unfold make_directories, dbutils_fs_mkdirs.
  repeat (apply respects_bind;
          [apply extends_trans | apply quiet_lift_fs; reflexivity | intros _]).
  apply respects_ret. apply extends_refl.
Qed.

Lemma install_cell_skips (w : World) (files : list FileInfo) :
  reinstall_requested = false ->
  fs_ls (fs w) datasets_dir = Ok files ->
  exists w', install_cell w = (Returns tt, w')
             /\ extends (fun e => is_rm_or_cp e = false) w w'.
Proof.
  unfold reinstall_requested, install_cell, try_except.
  rewrite first_attempt_run. intros Hreq Hls.
  destruct (install_datasets_skips (log (WidgetGet "reinstall") w) files Hls)
    as [w' [E [_ Hcalls]]].
  assert (Hext : extends (fun e => is_rm_or_cp e = false) w w').
  { eapply extends_trans;
      [apply (extends_log _ (WidgetGet "reinstall")); reflexivity|].
    eapply fs_calls_without_rm_or_cp; [exact Hcalls | reflexivity]. }
  destruct (widgets_get "reinstall") as [v|e].
  - rewrite Hreq, E. eauto.
  - rewrite E. eauto.
Qed.


End Idempotence.

(** *** list_r and the walk of the tree *)

Lemma sorted_perm_eq (l l' : list str) :
  StronglySorted str_le l -> StronglySorted str_le l' -> Permutation l l' ->
  l = l'.
Proof.
  revert l'. induction l as [|a l IH]; intros l' Hs Hs' Hp.
  - apply Permutation_nil in Hp. subst. reflexivity.
  - destruct l' as [|b l'];
      [apply Permutation_sym, Permutation_nil in Hp; discriminate|].
    inversion Hs as [|? ? Hsl Ha]; inversion Hs' as [|? ? Hsl' Hb]; subst.
    assert (E : a = b).
    { assert (Hab : In a (b :: l'))
        by (eapply Permutation_in; [exact Hp | left; reflexivity]).
      assert (Hba : In b (a :: l))
        by (eapply Permutation_in;
            [apply Permutation_sym; exact Hp | left; reflexivity]).
      destruct Hab as [->|Hab]; [reflexivity|].
      destruct Hba as [->|Hba]; [reflexivity|].
      rewrite Forall_forall in Ha, Hb.
      apply String.leb_antisym; [apply Ha, Hba | apply Hb, Hab]. }
    subst b. f_equal. apply IH; auto. eapply Permutation_cons_inv; eauto.
Qed.

(** Sorting forgets the order it was given. *)
Lemma sort_Permutation (l l' : list str) :
  Permutation l l' -> sort l = sort l'.
Proof.
  intros Hp. apply sorted_perm_eq; try apply sort_strongly_sorted.
  eapply perm_trans; [apply Permutation_sym, sort_perm|].
  eapply perm_trans; [exact Hp | apply sort_perm].
Qed.

Lemma list_r_some (fuel : nat) (p : str) (prefix : option str)
  (results : option (list str)) :
  list_r fuel p prefix results =
  list_r fuel p (Some (match prefix with None => p | Some x => x end))
    (Some (match results with None => [] | Some l => l end)).
Proof. destruct fuel, prefix, results; reflexivity. Qed.

Lemma list_r_loop_walk (fuel : nat) (prefix : str) (s : FS)
  (IH : forall p acc w es,
      fs w = s -> walk fuel s p = Some es ->
      exists w', list_r fuel p (Some prefix) (Some acc) w
                 = (Returns (sort (acc ++ map (strip prefix) es)), w')
                 /\ fs w' = s) :
  forall files acc w es,
    fs w = s -> below (walk fuel s) files = Some es ->
    exists l w',
      for_in files (list_r_body (list_r fuel) prefix) acc w = (Returns l, w')
      /\ fs w' = s
      /\ Permutation l (acc ++ map (strip prefix) es).
Proof.
  induction files as [|f files IHf]; intros acc w es Hw Hb; simpl in Hb.
  - injection Hb as <-. exists acc, w. simpl. rewrite app_nil_r.
    repeat split; auto.
  - simpl for_in. unfold bind at 1. unfold list_r_body at 1.
    destruct (isDir f).
    + destruct (walk fuel s (path f)) as [sub|] eqn:Hsub; [|discriminate].
      destruct (below (walk fuel s) files) as [more|] eqn:Hmore; [|discriminate].
      injection Hb as <-.
      destruct (IH (path f)
                  (acc ++ [slice_from (String.length prefix) (path f)])%list
                  w sub Hw Hsub) as [w1 [E1 Hw1]].
      rewrite E1.
      destruct (IHf (sort ((acc ++ [slice_from (String.length prefix) (path f)])
                           ++ map (strip prefix) sub))%list
                  w1 more Hw1 eq_refl) as [l [w2 [E2 [Hw2 Hp]]]].
      exists l, w2. repeat split; auto.
      eapply perm_trans; [exact Hp|].
      simpl. rewrite map_app.
      eapply perm_trans;
        [apply Permutation_app_tail, Permutation_sym, sort_perm|].
      rewrite <- !app_assoc. reflexivity.
    + destruct (below (walk fuel s) files) as [more|] eqn:Hmore; [|discriminate].
      injection Hb as <-. unfold ret at 1.
      destruct (IHf (acc ++ [slice_from (String.length prefix) (path f)])%list
                  w more Hw eq_refl) as [l [w2 [E2 [Hw2 Hp]]]].
      exists l, w2. repeat split; auto.
      eapply perm_trans; [exact Hp|].
      simpl. rewrite <- app_assoc. reflexivity.
Qed.

Lemma list_r_walk (fuel : nat) (prefix : str) (s : FS) :
  forall p acc w es,
    fs w = s -> walk fuel s p = Some es ->
    exists w', list_r fuel p (Some prefix) (Some acc) w
               = (Returns (sort (acc ++ map (strip prefix) es)), w')
               /\ fs w' = s.
Proof.
  induction fuel as [|fuel IH]; intros p acc w es Hw Hwalk; [discriminate|].
  simpl in Hwalk.
  destruct (fs_ls s p) as [files|e] eqn:Hls; [|discriminate].
  rewrite list_r_S. unfold bind at 1, dbutils_fs_ls. rewrite Hw, Hls.
  destruct (list_r_loop_walk fuel prefix s IH files acc (log (Ls p) w) es)
    as [l [w' [E [Hw' Hp]]]]; [exact Hw | exact Hwalk|].
  unfold bind at 1. rewrite E. exists w'. split; [|exact Hw'].
  unfold ret. f_equal. f_equal. apply sort_Permutation. exact Hp.
Qed.

(** X1.  Whenever every directory below [p] can be listed, [list_r]
    returns the sorted list of the entries it was given in [results]
    followed by the stripped path of every entry of the walk, each as
    often as the walk meets it: the sorting of the shared list inside the
    recursive calls leaves no mark on the result.  The file system is not
    changed. *)
Theorem list_r_sorts_the_walk (fuel : nat) (p : str) (prefix : option str)
  (results : option (list str)) (w : World) (es : list FileInfo) :
  walk fuel (fs w) p = Some es ->
  exists w',
    list_r fuel p prefix results w
    = (Returns
         (sort (match results with None => [] | Some l => l end
                ++ map (strip (match prefix with None => p | Some x => x end))
                     es)),
       w')
    /\ fs w' = fs w.
Proof.
  intros H. rewrite list_r_some. eapply list_r_walk; eauto.
Qed.

(** X2.  The list [list_r] returns does not depend on the order in which
    [dbutils.fs.ls] lists the entries, nor on the depth allowed: two
    walks that meet the same paths give the same list. *)
Theorem list_r_ignores_listing_order (fuel fuel' : nat) (p : str)
  (w w' : World) (es es' : list FileInfo) :
  walk fuel (fs w) p = Some es ->
  walk fuel' (fs w') p = Some es' ->
  Permutation (map path es) (map path es') ->
  fst (list_r fuel p None None w) = fst (list_r fuel' p None None w').
Proof.
  intros H H' Hp.
  rewrite (list_r_defaults fuel p), (list_r_defaults fuel' p).
  destruct (list_r_walk fuel p (fs w) p [] w es eq_refl H) as [w1 [-> _]].
  destruct (list_r_walk fuel' p (fs w') p [] w' es' eq_refl H') as [w1' [-> _]].
  simpl. f_equal. apply sort_Permutation.
  unfold strip.
  rewrite <- (map_map path (slice_from (String.length p)) es).
  rewrite <- (map_map path (slice_from (String.length p)) es').
  apply Permutation_map. exact Hp.
Qed.

(** *** What the validation and the set-up never do *)

Lemma looks_ls (p : str) : respects (extends is_query) (dbutils_fs_ls p).
Proof.
  intros w. unfold dbutils_fs_ls.
  destruct (fs_ls (fs w) p); apply (extends_log is_query (Ls p)); exact I.
Qed.

Lemma looks_time : respects (extends is_query) time_time.
Proof. intros w. apply (extends_log is_query Time). exact I. Qed.

Lemma looks_print_end (text e : str) :
  respects (extends is_query) (print_end text e).
Proof. intros w. apply (extends_log is_query (Print (text ++ e))). exact I. Qed.

#[local] Hint Resolve looks_ls looks_time looks_print_end : world.

Lemma looks_list_r (fuel : nat) :
  forall p prefix results,
    respects (extends is_query) (list_r fuel p prefix results).
Proof.
  induction fuel as [|fuel IH]; intros p prefix results; simpl.
  - apply respects_out_of_fuel. eauto with world.
  - respects_steps; try apply IH.
Qed.

Lemma looks_validate_datasets (fuel : nat) :
  respects (extends is_query) (validate_datasets fuel).
Proof.
  rewrite validate_datasets_unfold.
  apply respects_bind; [eauto with world | apply looks_time | intros start].
  apply respects_bind; [eauto with world | apply looks_print_end | intros _].
  unfold validate_from.
  apply respects_bind; [eauto with world | apply looks_list_r | intros local_files].
  apply respects_bind; [eauto with world | apply looks_list_r | intros remote_files].
  respects_steps.
Qed.

(** X3.  Whatever its outcome, [validate_datasets] only looks: it leaves
    the file system as it is, and all it does is list directories, read
    the clock and print. *)
Theorem validate_datasets_only_looks (fuel : nat) (w : World) :
  fs (snd (validate_datasets fuel w)) = fs w
  /\ extends is_query w (snd (validate_datasets fuel w)).
Proof.
  split; [apply (reads_validate_datasets fuel w) | apply looks_validate_datasets].
Qed.

Lemma extends_weaken (P Q : event -> Prop) (w w' : World) :
  (forall e, P e -> Q e) -> extends P w w' -> extends Q w w'.
Proof.
  intros HPQ [evs [E F]]. exists evs. split; [exact E|].
  eapply Forall_impl; eauto.
Qed.

Lemma is_query_may (e : event) : is_query e -> setup_may e.
Proof. destruct e; simpl; tauto. Qed.

Lemma may_lift_fs (e : event) (call : FS -> result bool * FS) :
  setup_may e -> respects (extends setup_may) (lift_fs e call).
Proof.
  intros He w. unfold lift_fs. exists [e].
  destruct (call (fs w)) as [[b|x] s'];
    (split; [reflexivity | repeat constructor; exact He]).
Qed.

Lemma may_print (text : str) : respects (extends setup_may) (print text).
Proof. intros w. apply (extends_log setup_may (Print (text ++ nl))). exact I. Qed.

Lemma may_path_exists (p : str) : respects (extends setup_may) (path_exists p).
Proof.
  intros w. rewrite path_exists_run. apply (extends_log setup_may (Ls p)).
  exact I.
Qed.

Lemma may_install_datasets (reinstall : bool) :
  (reinstall = true -> reinstall_requested = true) ->
  respects (extends setup_may) (install_datasets reinstall).
Proof.
  intros Hreq. unfold install_datasets.
  apply respects_bind; [apply extends_trans | apply may_print | intros _].
  apply respects_bind; [apply extends_trans | apply may_print | intros _].
  apply respects_bind; [apply extends_trans | apply may_path_exists | intros existing].
  assert (Hcp : respects (extends setup_may)
                  (dbutils_fs_cp source_path datasets_dir true)).
  { apply may_lift_fs. split; reflexivity. }
  destruct reinstall, existing; cbn [negb andb];
    repeat first
      [ apply may_print
      | apply respects_ret; apply extends_refl
      | apply respects_bind; [apply extends_trans | | intros ?]
      | exact Hcp
      | apply may_lift_fs; split; [apply Hreq; reflexivity | reflexivity] ].
Qed.

Lemma may_first_attempt : respects (extends setup_may) first_attempt.
Proof.
  intros w. rewrite first_attempt_run.
  destruct (widgets_get "reinstall") as [v|e] eqn:Hw.
  - eapply extends_trans;
      [apply (extends_log setup_may (WidgetGet "reinstall")); reflexivity|].
    apply may_install_datasets. intros Hv.
    unfold reinstall_requested. rewrite Hw. exact Hv.
  - apply (extends_log setup_may (WidgetGet "reinstall")). reflexivity.
Qed.

(** X4.  The set-up is careful with the workspace, whatever the platform
    answers and however the run ends: it removes nothing but the datasets
    directory, and that only when the widget asks for a reinstallation; it
    copies from the source to the datasets directory only; it creates only
    its three directories; and the one widget it reads is [reinstall]. *)
Theorem setup_touches_only_its_own (fuel : nat) (w : World) :
  extends setup_may w (snd (setup fuel w)).
Proof.
  revert w. change (respects (extends setup_may) (setup fuel)).
  unfold setup, make_directories, dbutils_fs_mkdirs.
  apply respects_bind; [apply extends_trans | | intros _].
  - repeat (apply respects_bind;
            [apply extends_trans
            | apply may_lift_fs; simpl; auto
            | intros _]).
    apply respects_ret. apply extends_refl.
  - unfold setup_cell, install_cell.
    apply respects_bind; [apply extends_trans | | intros _].
    + apply respects_try_except;
        [apply extends_trans | apply may_first_attempt|].
      apply may_install_datasets. discriminate.
    + intros w. eapply extends_weaken; [apply is_query_may|].
      apply looks_validate_datasets.
Qed.

(** *** How the validation fails *)

Section Faults.

Variable s : FS.
Variable ok : exn -> Prop.

Lemma faults_ret (place : str -> Prop) {A} (a : A) :
  faults_of_ls s ok place (ret a).
Proof.
  intros w Hw. split; [exact Hw|]. split; [|discriminate].
  exists []. simpl. rewrite app_nil_r. reflexivity.
Qed.

Lemma faults_raise (place : str -> Prop) {A} (e : exn) :
  ok e -> faults_of_ls s ok place (@raise World A e).
Proof.
  intros H w Hw. split; [exact Hw|]. split.
  - exists []. simpl. rewrite app_nil_r. reflexivity.
  - intros e' E. injection E as <-. auto.
Qed.

Lemma faults_log (place : str -> Prop) {A} (a : A) (ev : event) :
  faults_of_ls s ok place (fun w => (Returns a, log ev w)).
Proof.
  intros w Hw. split; [exact Hw|]. split; [|discriminate].
  exists [ev]. reflexivity.
Qed.

Lemma faults_weaken (place place' : str -> Prop) {A} (m : M World A) :
  (forall p, place p -> place' p) ->
  faults_of_ls s ok place m -> faults_of_ls s ok place' m.
Proof.
  intros Hp Hm w Hw. destruct (Hm w Hw) as [Hf [Ht He]].
  split; [exact Hf|]. split; [exact Ht|].
  intros e E. destruct (He e E) as [H|[evs [p [T [L P]]]]]; [auto|].
  right. exists evs, p. auto.
Qed.

Lemma faults_bind (place : str -> Prop) {A B} (m : M World A)
  (k : A -> M World B) :
  faults_of_ls s ok place m ->
  (forall a w, fst (m w) = Returns a -> fs w = s ->
               forall w1, fs w1 = s ->
                 fs (snd (k a w1)) = s
                 /\ (exists evs, trace (snd (k a w1)) = (trace w1 ++ evs)%list)
                 /\ forall e, fst (k a w1) = Raises e ->
                              ok e \/ raised_by_listing place w1 (snd (k a w1)) e) ->
  faults_of_ls s ok place (bind m k).
Proof.
  intros Hm Hk w Hw. unfold bind. destruct (Hm w Hw) as [Hf [[evs Ht] He]].
  destruct (m w) as [[a|e|] w1] eqn:Em; cbn [fst snd] in *.
  - assert (E0 : fst (m w) = Returns a) by (rewrite Em; reflexivity).
    destruct (Hk a w E0 Hw w1 Hf) as [Hf' [[evs' Ht'] He']].
    split; [exact Hf'|]. split.
    + exists (evs ++ evs')%list. rewrite Ht', Ht, app_assoc. reflexivity.
    + intros e E. destruct (He' e E) as [H|[evs2 [p [T [L P]]]]]; [auto|].
      right. exists (evs ++ evs2)%list, p. split; [|split; [|exact P]].
      * rewrite T, Ht, <- !app_assoc. reflexivity.
      * rewrite Hw. rewrite Hf in L. exact L.
  - split; [exact Hf|]. split; [eauto|].
    intros e' E. injection E as <-. apply He. reflexivity.
  - split; [exact Hf|]. split; [eauto | discriminate].
Qed.

Lemma faults_then (place : str -> Prop) {A B} (m : M World A)
  (k : A -> M World B) :
  faults_of_ls s ok place m -> (forall a, faults_of_ls s ok place (k a)) ->
  faults_of_ls s ok place (bind m k).
Proof.
  intros Hm Hk. apply faults_bind; [exact Hm|].
  intros a w _ _ w1 Hw1. exact (Hk a w1 Hw1).
Qed.

Lemma faults_for_in (place : str -> Prop) {A L} (xs : list A)
  (body : A -> L -> M World L) :
  (forall x acc, In x xs -> faults_of_ls s ok place (body x acc)) ->
  forall acc, faults_of_ls s ok place (for_in xs body acc).
Proof.
  induction xs as [|x xs IH]; intros Hb acc; simpl.
  - apply faults_ret.
  - apply faults_then; [apply Hb; left; reflexivity|].
    apply IH. intros y acc' Hy. apply Hb. right. exact Hy.
Qed.

Lemma faults_ls (place : str -> Prop) {B} (p : str)
  (k : list FileInfo -> M World B) :
  place p ->
  (forall files, fs_ls s p = Ok files -> faults_of_ls s ok place (k files)) ->
  faults_of_ls s ok place (files <- dbutils_fs_ls p ;; k files).
Proof.
  intros Hp Hk. apply faults_bind.
  - intros w Hw. unfold dbutils_fs_ls.
    destruct (fs_ls (fs w) p) as [files|e] eqn:E; cbn [fst snd log fs trace].
    + split; [exact Hw|]. split; [eauto | discriminate].
    + split; [exact Hw|]. split; [eauto|].
      intros e' H. injection H as <-. right. exists [], p. auto.
  - intros files w E Hw w1 Hw1. apply Hk; [|exact Hw1].
    unfold dbutils_fs_ls in E. rewrite Hw in E.
    destruct (fs_ls s p) as [l|x]; [|discriminate].
    injection E as ->. reflexivity.
Qed.

Lemma faults_print_end (place : str -> Prop) (text e : str) :
  faults_of_ls s ok place (print_end text e).
Proof. apply faults_log. Qed.

Lemma faults_time (place : str -> Prop) : faults_of_ls s ok place time_time.
Proof.
  intros w Hw. split; [exact Hw|]. split; [|discriminate].
  exists [Time]. reflexivity.
Qed.

Lemma walked_deeper (p q : str) (files : list FileInfo) (file : FileInfo) :
  fs_ls s p = Ok files -> In file files -> isDir file = true ->
  walked s (path file) q -> walked s p q.
Proof.
  intros Hls Hin Hd [->|[g [Hg [Hgd Hq]]]]; right.
  - exists file. split; [eapply desc_child; eauto | auto].
  - exists g. split; [eapply desc_deeper; eauto | auto].
Qed.

Lemma faults_list_r (fuel : nat) :
  forall p prefix results,
    faults_of_ls s ok (walked s p) (list_r fuel p prefix results).
Proof.
  induction fuel as [|fuel IH]; intros p prefix results; simpl.
  - intros w Hw. split; [exact Hw|]. split; [|discriminate].
    exists []. simpl. rewrite app_nil_r. reflexivity.
  - apply faults_ls; [left; reflexivity | intros files Hls].
    apply faults_then; [|intros l; apply faults_ret].
    apply faults_for_in. intros file acc Hin.
    destruct (isDir file) eqn:Hd; [|apply faults_ret].
    eapply faults_weaken; [|apply IH].
    intros q. apply walked_deeper with (files := files); assumption.
Qed.

End Faults.

Lemma faults_validate_loop (s : FS) (place : str -> Prop) (msg : str)
  (others xs : list str) :
  faults_of_ls s (fun e => e = validation_failed) place
    (for_in xs
       (fun file _ =>
          if negb (mem file others) then
            print (nl ++ msg ++ file) ;;
            print "  - This problem can be fixed by reinstalling the datasets" ;;
            raise validation_failed
          else ret tt) tt).
Proof.
  apply faults_for_in. intros file [] _.
  destruct (negb (mem file others)); [|apply faults_ret].
  apply faults_then; [apply faults_print_end | intros _].
  apply faults_then; [apply faults_print_end | intros _].
  apply faults_raise. reflexivity.
Qed.

Lemma faults_validate_datasets (s : FS) (fuel : nat) :
  faults_of_ls s (fun e => e = validation_failed)
    (fun p => walked s datasets_dir p \/ walked s source_path p)
    (validate_datasets fuel).
Proof.
  rewrite validate_datasets_unfold.
  apply faults_then; [apply faults_time | intros start].
  apply faults_then; [apply faults_print_end | intros _].
  unfold validate_from.
  apply faults_then;
    [eapply faults_weaken; [|apply faults_list_r]; intros p; auto
    | intros local_files].
  apply faults_then;
    [eapply faults_weaken; [|apply faults_list_r]; intros p; auto
    | intros remote_files].
  apply faults_then;
    [apply (faults_validate_loop s _ "  - Found extra file: ") | intros _].
  apply faults_then;
    [apply (faults_validate_loop s _ "  - Missing file: ") | intros _].
  apply faults_then; [apply faults_time | intros now].
  apply faults_print_end.
Qed.

(** X5.  [validate_datasets] fails in two ways only: with its own
    "Validation failed" exception, or with the exception of the listing
    it called last, which it lets through as it is.  That listing is one
    of the two recursive listings at work: it is called on the datasets
    directory, on the source, or on a directory found below one of them
    (a datasets directory that is not there, a source that cannot be
    reached, a directory that cannot be read). *)
Theorem validate_datasets_raises_its_own_or_a_listing_error
  (fuel : nat) (w : World) (e : exn) :
  fst (validate_datasets fuel w) = Raises e ->
  e = validation_failed
  \/ raised_by_listing
       (fun p => walked (fs w) datasets_dir p \/ walked (fs w) source_path p)
       w (snd (validate_datasets fuel w)) e.
Proof.
  intros H.
  destruct (faults_validate_datasets (fs w) fuel w eq_refl) as [_ [_ He]].
  exact (He e H).
Qed.

(** *** Which file a failed validation names *)

Lemma validate_loop_first (msg : str) (others xs : list str) (w : World) :
  forallb (fun x => mem x others) xs = false ->
  exists pre x post,
    xs = (pre ++ x :: post)%list
    /\ (forall y, In y pre -> In y others)
    /\ ~ In x others
    /\ for_in xs
         (fun file _ =>
            if negb (mem file others) then
              print (nl ++ msg ++ file) ;;
              print "  - This problem can be fixed by reinstalling the datasets" ;;
              raise validation_failed
            else ret tt) tt w
       = (Raises validation_failed,
          log fix_message (log (Print ((nl ++ msg ++ x) ++ nl)) w)).
Proof.
  induction xs as [|x xs IH]; simpl; [discriminate|].
  destruct (mem x others) eqn:Hx; simpl.
  - intros H. destruct (IH H) as [pre [x' [post [-> [Hpre [Hx' E]]]]]].
    exists (x :: pre), x', post.
    split; [reflexivity|]. split; [|split; [exact Hx'|]].
    + intros y [<-|Hy]; [apply mem_In; exact Hx | apply Hpre; exact Hy].
    + unfold bind at 1. cbn [ret]. exact E.
  - intros _. exists [], x, xs.
    split; [reflexivity|]. split; [intros y []|].
    split; [apply mem_false; exact Hx | reflexivity].
Qed.

Lemma sorted_after (pre post : list str) (x y : str) :
  StronglySorted str_le (pre ++ x :: post) -> In y post -> str_le x y.
Proof.
  induction pre as [|a pre IH]; simpl; intros Hs Hy.
  - inversion Hs as [|? ? _ Hall]; subst.
    rewrite Forall_forall in Hall. apply Hall, Hy.
  - inversion Hs; subst. apply IH; assumption.
Qed.

Lemma lists_ls (p : str) : respects (extends is_ls) (dbutils_fs_ls p).
Proof.
  intros w. unfold dbutils_fs_ls.
  destruct (fs_ls (fs w) p); apply (extends_log is_ls (Ls p)); exact I.
Qed.

Lemma lists_list_r (fuel : nat) :
  forall p prefix results,
    respects (extends is_ls) (list_r fuel p prefix results).
Proof.
  induction fuel as [|fuel IH]; intros p prefix results; simpl.
  - apply respects_out_of_fuel. apply extends_refl.
  - apply respects_bind; [apply extends_trans | apply lists_ls | intros files].
    apply respects_bind; [apply extends_trans | | intros l].
    + apply respects_for_in; [apply extends_refl | apply extends_trans |].
      intros file acc. destruct (isDir file); [apply IH|].
      apply respects_ret. apply extends_refl.
    + apply respects_ret. apply extends_refl.
Qed.

(** X6.  When the local copy holds a path the source does not have, the
    validation raises in its first loop: after the clock, the banner and
    the listings, it names the least of the extra paths in the order of
    the listing, advises to reinstall, and raises; no file is reported
    missing. *)
Theorem validate_datasets_names_least_extra_file (fuel : nat) (w : World) :
  tree_at (fs w) fuel datasets_dir ->
  tree_at (fs w) fuel source_path ->
  (exists y, listed_below (fs w) datasets_dir y
             /\ ~ listed_below (fs w) source_path y) ->
  exists x listings,
    listed_below (fs w) datasets_dir x
    /\ ~ listed_below (fs w) source_path x
    /\ (forall y, listed_below (fs w) datasets_dir y ->
                  ~ listed_below (fs w) source_path y -> str_le x y)
    /\ fst (validate_datasets fuel w) = Raises validation_failed
    /\ trace (snd (validate_datasets fuel w))
       = (trace w ++ Time :: validation_banner :: listings
            ++ [extra_file_message x; fix_message])%list
    /\ Forall is_ls listings.
Proof.
  intros Hl Hr [y [Hy Hny]].
  set (w0 := log (Print ((nl ++ "Validating the local copy of the datsets")
                         ++ "...")) (log Time w)).
  destruct (list_r_top fuel datasets_dir w0 Hl)
    as [local [w1 [E1 [Hw1 [Hsorted Hin1]]]]].
  assert (Hr1 : tree_at (fs w1) fuel source_path) by (rewrite Hw1; exact Hr).
  destruct (list_r_top fuel source_path w1 Hr1)
    as [remote [w2 [E2 [Hw2 [_ Hin2]]]]].
  rewrite Hw1 in Hin2.
  pose proof (lists_list_r fuel datasets_dir None None w0) as [evs1 [T1 F1]].
  pose proof (lists_list_r fuel source_path None None w1) as [evs2 [T2 F2]].
  rewrite E1 in T1. rewrite E2 in T2. cbn [snd] in T1, T2.
  assert (Hextra : forallb (fun x => mem x remote) local = false).
  { apply forallb_mem_false. exists y. split; [apply Hin1, Hy|].
    intros H. apply Hny, Hin2, H. }
  destruct (validate_loop_first "  - Found extra file: " remote local w2 Hextra)
    as [pre [x [post [Hlocal [Hpre [Hx E]]]]]].
  assert (Hrun : validate_datasets fuel w
                 = (Raises validation_failed,
                    log fix_message (log (extra_file_message x) w2))).
  { rewrite validate_datasets_unfold.
    unfold bind at 1. unfold time_time at 1.
    unfold bind at 1. unfold print_end at 1.
    fold w0. unfold validate_from.
    unfold bind at 1. rewrite E1. unfold bind at 1. rewrite E2.
    unfold bind at 1. rewrite E. reflexivity. }
  rewrite Hrun. cbn [fst snd].
  exists x, (evs1 ++ evs2)%list.
  assert (Hxl : In x local)
    by (rewrite Hlocal; apply in_or_app; right; left; reflexivity).
  split; [apply Hin1, Hxl|].
  split; [intros H; apply Hx, Hin2, H|].
  split.
  { intros z Hz Hnz. apply Hin1 in Hz. rewrite Hlocal in Hz, Hsorted.
    apply in_app_or in Hz. destruct Hz as [Hz|[<-|Hz]].
    - exfalso. apply Hnz, Hin2, Hpre, Hz.
    - apply leb_refl.
    - eapply sorted_after; eauto. }
  split; [reflexivity|]. split.
  - cbv [log trace]. fold (trace w2). rewrite T2, T1.
    subst w0. cbv [log trace]. rewrite <- !app_assoc. reflexivity.
  - apply Forall_app. split; assumption.
Qed.

(** *** The widget and the exceptions of the installation cell *)

Lemma lower_char_either (lo up : ascii) (c : ascii) :
  In (lo, up) [("t", "T"); ("r", "R"); ("u", "U"); ("e", "E")]%char ->
  Ascii.eqb (lower_char c) lo = either lo up c.
Proof.
  intros H. simpl in H.
  destruct H as [H|[H|[H|[H|[]]]]]; injection H as <- <-;
    destruct c as [[] [] [] [] [] [] [] []]; reflexivity.
Qed.

Lemma lower_spells_true (v : str) :
  String.eqb (lower v) "true" = spells_true v.
Proof.
  destruct v as [|c1 [|c2 [|c3 [|c4 [|c5 v]]]]]; cbn [lower spells_true String.eqb];
    try reflexivity;
    rewrite ?(lower_char_either "t" "T"), ?(lower_char_either "r" "R"),
            ?(lower_char_either "u" "U"), ?(lower_char_either "e" "E")
      by (simpl; auto 6);
    repeat match goal with
           | |- context [either ?a ?b ?c] => destruct (either a b c)
           end; reflexivity.
Qed.

(** X7.  The widget is read without regard to case, and to the letter:
    the first attempt reinstalls exactly for the sixteen spellings of
    [true] and installs without reinstalling for every other value, such
    as [yes], [1], the empty string or [true] with a blank around it. *)
Theorem first_attempt_reinstalls_iff_spelled_true (v : str) (w : World) :
  widgets_get "reinstall" = Ok v ->
  first_attempt w
  = install_datasets (spells_true v) (log (WidgetGet "reinstall") w).
Proof.
  intros H. rewrite first_attempt_run, H, lower_spells_true. reflexivity.
Qed.

(** X8.  If the installation cell raises, the exception is the one of
    the copy of the fallback: the first attempt had raised, the fallback
    found no datasets directory to list, and its [dbutils.fs.cp] raised.
    A widget that is not defined, a removal or a first copy that raises
    never leave the cell by themselves. *)
Theorem install_cell_raises_only_from_fallback_copy (w w' : World) (e : exn) :
  install_cell w = (Raises e, w') ->
  exists e1 w1 x,
    first_attempt w = (Raises e1, w1)
    /\ fs_ls (fs w1) datasets_dir = Err x
    /\ fs_cp (fs w1) source_path datasets_dir true = (Err e, fs w').
Proof.
  unfold install_cell, try_except.
  destruct (first_attempt w) as [[[]|e1|] w1] eqn:E1; try discriminate.
  intros H. exists e1, w1.
  pose proof (install_datasets_on_fs false w1) as Hfs.
  rewrite H in Hfs. unfold on_fs, install_fs in Hfs. cbn [fst snd] in Hfs.
  destruct (fs_ls (fs w1) datasets_dir) as [files|x]; [discriminate|].
  exists x. split; [reflexivity|]. split; [reflexivity|].
  destruct (fs_cp (fs w1) source_path datasets_dir true) as [[b|y] s2];
    simpl in Hfs; [discriminate|].
  injection Hfs as -> ->. reflexivity.
Qed.

End Platform.

(** *** The theorems at work on the two platforms *)

(** A fresh notebook session on the file system [s]. *)
Local Abbreviation demo_world s := {| fs := s; trace := [] |}.

(** The set-up on the demonstration workspace. *)
Local Abbreviation demo_setup widgets fuel :=
  (setup demo_ls demo_rm demo_cp demo_mkdirs widgets demo_clock
     demo_userhome demo_course_dir demo_working_dir fuel).

(** The set-up without widgets on the workspace with directories of its
    own. *)
Local Abbreviation home_setup fuel :=
  (setup home_ls home_rm home_cp home_mkdirs no_widgets demo_clock
     demo_userhome demo_course_dir demo_working_dir fuel).

(** The set-up that reinstalls, on the workspace whose source is
    metered. *)
Local Abbreviation metered_setup fuel :=
  (setup metered_ls metered_rm metered_cp metered_mkdirs reinstall_widget
     demo_clock demo_userhome demo_course_dir demo_working_dir fuel).

(** The installation cell on the workspace that is offline. *)
Local Abbreviation offline_cell :=
  (setup_cell offline_ls offline_rm offline_cp no_widgets demo_clock
     demo_course_dir 2 {| fs := tt; trace := [] |}).

Ltac entries H := repeat (destruct H as [<-|H]); [.. | destruct H].

Lemma demo_tree_source (s : demo_fs) : tree_at demo_ls s 2 source_path.
Proof.
  apply tree_node with (files := demo_top source_path).
  - reflexivity.
  - intros f H. entries H; eexists; reflexivity.
  - intros f H Hd. entries H; [discriminate|].
    apply tree_node with (files := demo_sub source_path).
    + reflexivity.
    + intros f H. entries H. exists "b.csv". reflexivity.
    + intros f H Hd'. entries H. discriminate.
Qed.

Lemma demo_tree_stale : tree_at demo_ls Stale 2 (datasets_dir demo_course_dir).
Proof.
  apply tree_node with (files := (demo_top demo_datasets_dir ++ [demo_old])%list).
  - reflexivity.
  - intros f H. entries H; eexists; reflexivity.
  - intros f H Hd. entries H; try discriminate.
    apply tree_node with (files := demo_sub demo_datasets_dir).
    + reflexivity.
    + intros f H. entries H. exists "b.csv". reflexivity.
    + intros f H Hd'. entries H. discriminate.
Qed.

(** [path_exists] on a missing and on an installed datasets directory. *)
Example path_exists_demo :
  fst (path_exists demo_ls demo_datasets_dir (demo_world Absent)) = Returns false
  /\ fst (path_exists demo_ls demo_datasets_dir (demo_world Installed))
     = Returns true.
Proof. split; vm_compute; reflexivity. Qed.

(** The [dbutils.fs] calls of [install_datasets]: a skip, a first
    installation, a reinstallation. *)
Example install_datasets_demo :
  filter is_fs_call
    (trace (snd (install_datasets demo_ls demo_rm demo_cp demo_course_dir
                   false (demo_world Installed))))
  = [Ls demo_datasets_dir]
  /\ filter is_fs_call
       (trace (snd (install_datasets demo_ls demo_rm demo_cp demo_course_dir
                      false (demo_world Absent))))
     = [Ls demo_datasets_dir; Cp source_path demo_datasets_dir true]
  /\ filter is_fs_call
       (trace (snd (install_datasets demo_ls demo_rm demo_cp demo_course_dir
                      true (demo_world Stale))))
     = [Ls demo_datasets_dir; Rm demo_datasets_dir true;
        Cp source_path demo_datasets_dir true].
Proof. repeat split; vm_compute; reflexivity. Qed.

(** C2 as it is worded fails on a datasets directory that cannot be
    removed: the directory exists and a reinstallation is asked for, so
    the removal is called; it raises, the exception leaves
    [install_datasets], and no copy is made. *)
Lemma install_datasets_failed_removal_copies_nothing :
  fst (install_datasets demo_ls locked_rm demo_cp demo_course_dir
         true (demo_world Installed))
  = Raises (Exception "remove failed")
  /\ filter is_fs_call
       (trace (snd (install_datasets demo_ls locked_rm demo_cp demo_course_dir
                      true (demo_world Installed))))
     = [Ls demo_datasets_dir; Rm demo_datasets_dir true]
  /\ fs (snd (install_datasets demo_ls locked_rm demo_cp demo_course_dir
                true (demo_world Installed)))
     = Installed.
Proof. repeat split; vm_compute; reflexivity. Qed.

(** A set-up without widgets on an empty workspace installs through the
    fallback and validates. *)
Example setup_demo :
  on_fs (demo_setup no_widgets 2 (demo_world Absent)) = (Returns tt, Installed)
  /\ on_fs (demo_setup no_widgets 2 (demo_world Stale))
     = (Raises validation_failed, Stale).
Proof. split; vm_compute; reflexivity. Qed.

(** The listing of the source, computed. *)
Example list_r_demo :
  fst (list_r demo_ls 2 source_path None None (demo_world Installed)) =
  Returns ["/a.csv"; "/d/"; "/d/b.csv"]%string.
Proof. vm_compute. reflexivity. Qed.

Lemma list_r_sorted_descendants_witness :
  exists l w',
    list_r demo_ls 2 source_path None None (demo_world Installed) = (Returns l, w')
    /\ fs w' = Installed
    /\ StronglySorted str_le l
    /\ (forall g, descendant demo_ls Installed source_path g ->
          exists x, path g = (source_path ++ x)%string /\ In x l)
    /\ (forall x, In x l ->
          exists g, descendant demo_ls Installed source_path g
                    /\ path g = (source_path ++ x)%string).
Proof.
  apply (list_r_sorted_descendants demo_ls 2 source_path (demo_world Installed)).
  apply demo_tree_source.
Defined.

(** With a stale local file, the validation raises, and the theorem
    turns that into a relative path that one listing has and the other
    has not. *)
Lemma validate_datasets_witness :
  fst (validate_datasets demo_ls demo_clock demo_course_dir 2 (demo_world Stale))
  = Raises validation_failed
  /\ exists x,
       (listed_below demo_ls Stale (datasets_dir demo_course_dir) x
        /\ ~ listed_below demo_ls Stale source_path x)
       \/ (listed_below demo_ls Stale source_path x
           /\ ~ listed_below demo_ls Stale (datasets_dir demo_course_dir) x).
Proof.
  pose proof (validate_datasets_raises_iff_listings_differ
                demo_ls demo_clock demo_course_dir 2 (demo_world Stale)
                demo_tree_stale (demo_tree_source Stale)) as [H _].
  split; [vm_compute; reflexivity|].
  apply H. vm_compute. reflexivity.
Defined.

(** The workspace with directories of its own meets the two assumptions
    on [dbutils.fs]. *)
Lemma home_mkdirs_contract : mkdirs_contract home_mkdirs home_is_dir.
Proof.
  unfold mkdirs_contract, home_mkdirs, home_is_dir. split; [|split].
  - intros s q H. exists true. apply mem_In in H. rewrite H. reflexivity.
  - intros s q b s'. destruct (mem q (made s)) eqn:E; intros H;
      injection H as _ <-.
    + apply mem_In. exact E.
    + cbn [made]. apply in_or_app. right. left. reflexivity.
  - intros s p b s' q. destruct (mem p (made s)); intros H Hq;
      injection H as _ <-; [exact Hq|].
    cbn [made]. apply in_or_app. left. exact Hq.
Qed.

Lemma home_cp_contract :
  cp_contract home_ls home_cp demo_userhome demo_course_dir demo_working_dir
    home_is_dir.
Proof.
  split.
  - intros s b s' H. unfold home_cp in H.
    destruct (demo_cp (datasets s) source_path
                (datasets_dir demo_course_dir) true) as [r d] eqn:E.
    injection H as -> <-. vm_compute in E. injection E as _ <-.
    eexists. vm_compute. reflexivity.
  - intros s r s' H Hd q Hq. unfold home_cp in H.
    destruct (demo_cp (datasets s) source_path
                (datasets_dir demo_course_dir) true) as [r' d].
    injection H as _ <-. exact (Hd q Hq).
Qed.


(** The [dbutils.fs] calls of that second run: three [mkdirs] on
    directories that exist, the listing of the skip, and the listings of
    the validation. *)
Example setup_twice_calls :
  let w0 := {| fs := {| made := []; datasets := Absent |}; trace := [] |} in
  let w1 := snd (home_setup 2 w0) in
  filter is_fs_call (skipn (length (trace w1)) (trace (snd (home_setup 2 w1))))
  = [Mkdirs demo_userhome; Mkdirs demo_course_dir; Mkdirs demo_working_dir;
     Ls demo_datasets_dir;
     Ls demo_datasets_dir; Ls (demo_datasets_dir ++ "/d/");
     Ls source_path; Ls (source_path ++ "/d/")].
Proof. vm_compute. reflexivity. Qed.


(** A stale workspace without widgets: the installation skips, the
    validation raises, and a second run does the same on the same file
    system. *)
Example setup_twice_stale :
  let w1 := snd (demo_setup no_widgets 2 (demo_world Stale)) in
  fst (demo_setup no_widgets 2 w1) = Raises validation_failed
  /\ fs (snd (demo_setup no_widgets 2 w1)) = Stale.
Proof. split; vm_compute; reflexivity. Qed.

(** C3 as it is worded fails on the workspace that is offline: no widget
    is defined, so the fallback runs; its copy raises; the exception
    leaves the cell, and [validate_datasets], which would have printed its
    banner first, has not run. *)
Lemma setup_cell_offline_skips_validation :
  fst offline_cell = Raises (Exception "copy failed")
  /\ filter (fun e => match e with Print _ => false | _ => true end)
       (trace (snd offline_cell))
     = [WidgetGet "reinstall"; Ls (datasets_dir demo_course_dir);
        Cp source_path (datasets_dir demo_course_dir) true]
  /\ ~ In validation_banner (trace (snd offline_cell))
  /\ ~ In Time (trace (snd offline_cell)).
Proof.
  split; [vm_compute; reflexivity|].
  split; [vm_compute; reflexivity|].
  split; intros H; vm_compute in H;
    repeat (destruct H as [H|H]; [discriminate|]); exact H.
Qed.

(** *** The further facts on the small platforms *)

Lemma list_r_sorts_the_walk_witness :
  exists w',
    list_r demo_ls 2 source_path None (Some ["/zz"; "/b"]%string)
      (demo_world Installed)
    = (Returns ["/a.csv"; "/b"; "/d/"; "/d/b.csv"; "/zz"]%string, w')
    /\ fs w' = Installed.
Proof.
  exact (list_r_sorts_the_walk demo_ls 2 source_path None
           (Some ["/zz"; "/b"]%string) (demo_world Installed)
           (demo_top source_path ++ demo_sub source_path)%list eq_refl).
Defined.

Lemma list_r_ignores_listing_order_witness :
  fst (list_r either_order_ls 1 "in:" None None (demo_world false))
  = fst (list_r either_order_ls 3 "in:" None None (demo_world true)).
Proof.
  apply (list_r_ignores_listing_order either_order_ls 1 3 "in:"
           (demo_world false) (demo_world true) two_files (rev two_files)
           eq_refl eq_refl).
  apply Permutation_map, Permutation_rev.
Defined.

(** With a source whose directory [d/] cannot be read, the validation
    lists the datasets, starts on the source, and raises what the listing
    of [d/] raises. *)
Lemma validate_datasets_listing_error_witness :
  not_found = validation_failed
  \/ raised_by_listing unread_ls
       (fun p => walked unread_ls Installed (datasets_dir demo_course_dir) p
                 \/ walked unread_ls Installed source_path p)
       (demo_world Installed)
       (snd (validate_datasets unread_ls demo_clock demo_course_dir 2
               (demo_world Installed)))
       not_found.
Proof.
  apply (validate_datasets_raises_its_own_or_a_listing_error
           unread_ls demo_clock demo_course_dir 2 (demo_world Installed)
           not_found).
  vm_compute. reflexivity.
Defined.

(** The calls of that run: the clock, the banner, and the listings up to
    the one that raised. *)
Example validate_datasets_unread_calls :
  trace (snd (validate_datasets unread_ls demo_clock demo_course_dir 2
                (demo_world Installed)))
  = [Time; validation_banner;
     Ls demo_datasets_dir; Ls (demo_datasets_dir ++ "/d/");
     Ls source_path; Ls (source_path ++ "/d/")].
Proof. vm_compute. reflexivity. Qed.

Lemma demo_source_has_no_old :
  ~ listed_below demo_ls Stale source_path "/old.csv".
Proof.
  intros [g [Hg Hp]].
  inversion Hg as [p files f Hls Hf|p files d g' Hls Hd Hdir Hg']; subst;
    vm_compute in Hls; injection Hls as <-.
  - entries Hf; vm_compute in Hp; discriminate.
  - entries Hd; [discriminate|]. clear Hdir.
    inversion Hg' as [p files f Hls Hf|p files d g' Hls Hd Hdir Hg'']; subst;
      vm_compute in Hls; injection Hls as <-.
    + entries Hf. vm_compute in Hp. discriminate.
    + entries Hd. discriminate.
Qed.

Lemma validate_datasets_names_least_extra_file_witness :
  exists x listings,
    listed_below demo_ls Stale (datasets_dir demo_course_dir) x
    /\ ~ listed_below demo_ls Stale source_path x
    /\ (forall y, listed_below demo_ls Stale (datasets_dir demo_course_dir) y ->
                  ~ listed_below demo_ls Stale source_path y -> str_le x y)
    /\ fst (validate_datasets demo_ls demo_clock demo_course_dir 2
              (demo_world Stale)) = Raises validation_failed
    /\ trace (snd (validate_datasets demo_ls demo_clock demo_course_dir 2
                     (demo_world Stale)))
       = ([] ++ Time :: validation_banner :: listings
             ++ [extra_file_message x; fix_message])%list
    /\ Forall is_ls listings.
Proof.
  apply (validate_datasets_names_least_extra_file
           demo_ls demo_clock demo_course_dir 2 (demo_world Stale)
           demo_tree_stale (demo_tree_source Stale)).
  exists "/old.csv". split; [|exact demo_source_has_no_old].
  exists demo_old. split; [|reflexivity].
  eapply desc_child; [reflexivity | right; right; left; reflexivity].
Defined.

(** The message of the stale workspace, computed. *)
Example validate_datasets_stale_messages :
  skipn 6 (trace (snd (validate_datasets demo_ls demo_clock demo_course_dir 2
                         (demo_world Stale))))
  = [extra_file_message "/old.csv"; fix_message].
Proof. vm_compute. reflexivity. Qed.

Lemma first_attempt_spelling_witness :
  first_attempt demo_ls demo_rm demo_cp reinstall_widget demo_course_dir
    (demo_world Stale)
  = install_datasets demo_ls demo_rm demo_cp demo_course_dir true
      (log (WidgetGet "reinstall") (demo_world Stale)).
Proof.
  exact (first_attempt_reinstalls_iff_spelled_true
           demo_ls demo_rm demo_cp reinstall_widget demo_course_dir
           "True" (demo_world Stale) eq_refl).
Defined.

Lemma install_cell_raises_witness :
  exists e1 w1 x,
    first_attempt offline_ls offline_rm offline_cp no_widgets demo_course_dir
      {| fs := tt; trace := [] |} = (Raises e1, w1)
    /\ offline_ls (fs w1) (datasets_dir demo_course_dir) = Err x
    /\ offline_cp (fs w1) source_path (datasets_dir demo_course_dir) true
       = (Err (Exception "copy failed"), tt).
Proof.
  apply (install_cell_raises_only_from_fallback_copy
           offline_ls offline_rm offline_cp no_widgets demo_course_dir
           {| fs := tt; trace := [] |}
           (snd (install_cell offline_ls offline_rm offline_cp no_widgets
                   demo_course_dir {| fs := tt; trace := [] |}))
           (Exception "copy failed")).
  vm_compute. reflexivity.
Defined.

End Classroom.

(** ** Facts about [track_experiments] *)

Module TrackingFacts.
Import Py Run Run.Notations Tracking.
Local Open Scope string_scope.

Section Libraries.

Variable may_raise : list call -> call -> option exn.
Variable built_model : keras_model.
Variable fit_history : dict value -> history.

Local Abbreviation invoke := (invoke may_raise).

Lemma bind_inv {S A B} (m : M S A) (k : A -> M S B) (s s' : S) (b : B) :
  bind m k s = (Returns b, s') ->
  exists a s1, m s = (Returns a, s1) /\ k a s1 = (Returns b, s').
Proof.
  unfold bind. destruct (m s) as [[a|e|] s1]; try discriminate. eauto.
Qed.

Lemma invoke_inv (c : call) (t t' : list call) (o : outcome unit) :
  invoke c t = (o, t') -> t' = (t ++ [c])%list.
Proof.
  unfold Tracking.invoke. destruct (may_raise t c); intros H; injection H as _ <-;
    reflexivity.
Qed.

Lemma logged_params_app (a b : list call) :
  logged_params (a ++ b) = (logged_params a ++ logged_params b)%list.
Proof.
  induction a as [|c a IH]; simpl; [reflexivity|].
  destruct c; simpl; rewrite ?IH; reflexivity.
Qed.

Lemma appends_invoke (c : call) (P : list call -> Prop) :
  P [c] -> appends (invoke c) P.
Proof.
  intros H t a t' E. apply invoke_inv in E. subst. eauto.
Qed.

Lemma appends_ret {A} (a : A) (P : list call -> Prop) :
  P [] -> appends (ret a) P.
Proof.
  intros H t a' t' E. injection E as _ <-. exists []. split; [|exact H].
  symmetry. apply app_nil_r.
Qed.

Lemma appends_bind {A B} (m : M (list call) A) (k : A -> M (list call) B)
  (P Q R : list call -> Prop) :
  appends m P -> (forall a, appends (k a) Q) ->
  (forall c1 c2, P c1 -> Q c2 -> R (c1 ++ c2)%list) ->
  appends (bind m k) R.
Proof.
  intros Hm Hk HR t b t' E. apply bind_inv in E. destruct E as [a [t1 [E1 E2]]].
  destruct (Hm _ _ _ E1) as [c1 [-> H1]].
  destruct (Hk _ _ _ _ E2) as [c2 [-> H2]].
  exists (c1 ++ c2)%list. split; [symmetry; apply app_assoc | auto].
Qed.

Lemma appends_logs_bind {A B} (m : M (list call) A) (k : A -> M (list call) B)
  (L1 L2 : list (str * value)) :
  appends m (logs L1) -> (forall a, appends (k a) (logs L2)) ->
  appends (bind m k) (logs (L1 ++ L2)).
Proof.
  intros Hm Hk. eapply appends_bind; eauto.
  unfold logs. intros c1 c2 H1 H2. rewrite logged_params_app, H1, H2. reflexivity.
Qed.

Lemma appends_logs_eq {A} (m : M (list call) A) (L L' : list (str * value)) :
  appends m (logs L) -> L = L' -> appends m (logs L').
Proof. intros H <-. exact H. Qed.

Lemma appends_quiet_bind {A B} (m : M (list call) A) (k : A -> M (list call) B) :
  appends m (logs []) -> (forall a, appends (k a) (logs [])) ->
  appends (bind m k) (logs []).
Proof. intros Hm Hk. apply (appends_logs_bind m k [] []); assumption. Qed.

Lemma appends_quiet_for_in {A} (xs : list A)
  (body : A -> unit -> M (list call) unit) :
  (forall x, appends (body x tt) (logs [])) ->
  appends (for_in xs body tt) (logs []).
Proof.
  intros Hb. induction xs as [|x xs IH]; simpl.
  - apply appends_ret. reflexivity.
  - apply appends_quiet_bind; [apply Hb | intros []; exact IH].
Qed.

Lemma log_history_metrics_quiet (h : history) :
  appends (log_history_metrics may_raise h) (logs []).
Proof.
  unfold log_history_metrics. apply appends_quiet_for_in. intros [key values].
  apply appends_quiet_for_in. intros [i v].
  apply appends_invoke. reflexivity.
Qed.

Lemma view_model_loss_quiet (h : history) :
  appends (view_model_loss may_raise h) (logs []).
Proof.
  unfold view_model_loss, getitem.
  apply appends_quiet_bind; [apply appends_invoke; reflexivity | intros _].
  apply appends_quiet_bind.
  { destruct (dict_get h "loss"); [apply appends_ret; reflexivity|].
    intros t a t' E. discriminate. }
  intros _.
  repeat (apply appends_quiet_bind; [apply appends_invoke; reflexivity | intros _]).
  apply appends_ret. reflexivity.
Qed.

Lemma log_keyword_params_logs (ck fk op : dict value) :
  appends (log_keyword_params may_raise ck fk op)
    (logs (keyword_params ck fk op)).
Proof.
  unfold log_keyword_params, keyword_params.
  induction (dict_merge3 ck fk op) as [|[k v] d IH]; cbn [for_in filter fst].
  - apply appends_ret. reflexivity.
  - destruct (negb (mem k ["x"; "y"])).
    + apply (appends_logs_bind _ _ [(k, v)]);
        [apply appends_invoke; reflexivity | intros []; exact IH].
    + apply (appends_logs_bind _ _ []);
        [apply appends_ret; reflexivity | intros []; exact IH].
Qed.

Lemma log_layer_params_from_logs (ls : list (list value)) :
  forall i,
    appends
      (for_in (enumerate_from i ls)
         (fun il _ =>
            let '(i, output_shape) := il in
            units <- index output_shape 1 ;;
            invoke (LogParam (hidden_layer_key i) units)) tt)
      (logs (layer_params_from i ls)).
Proof.
  induction ls as [|shape ls IH]; intros i;
    unfold layer_params_from; cbn [for_in enumerate_from flat_map fst snd].
  - apply appends_ret. reflexivity.
  - apply appends_logs_bind; [|intros []; apply IH].
    unfold index. destruct (nth_error shape 1) as [units|].
    + intros t a t' E. apply bind_inv in E. destruct E as [u [t1 [E1 E2]]].
      injection E1 as <- <-. apply invoke_inv in E2. subst.
      eexists. split; reflexivity.
    + intros t a t' E. discriminate.
Qed.

Lemma log_layer_params_logs (m : keras_model) :
  appends (log_layer_params may_raise m) (logs (layer_params m)).
Proof. apply log_layer_params_from_logs. Qed.

Lemma try_finally_inv {A} (body : M (list call) A)
  (cleanup : outcome A -> M (list call) unit) (t t' : list call) (a : A) :
  try_finally body cleanup t = (Returns a, t') ->
  exists t1, body t = (Returns a, t1)
             /\ fst (cleanup (Returns a) t1) = Returns tt
             /\ snd (cleanup (Returns a) t1) = t'.
Proof.
  unfold try_finally. destruct (body t) as [[a'|e|] t1]; try discriminate.
  - destruct (cleanup (Returns a') t1) as [[[]|e|] t2] eqn:E; try discriminate.
    intros H. injection H as Ha Ht. subst. exists t1. rewrite E. auto.
  - destruct (cleanup (Raises e) t1) as [[[]|e'|] t2]; discriminate.
Qed.

(** The block under [with mlflow.start_run(...)]. *)
Lemma run_block_logs (run_name : str) (ck fk op : dict value) :
  appends
    (invoke BuildModel ;;
     invoke (Compile ck) ;;
     invoke (Fit fk) ;;
     log_keyword_params may_raise ck fk op ;;
     log_history_metrics may_raise (fit_history fk) ;;
     log_layer_params may_raise built_model ;;
     invoke (LogModel "model") ;;
     view_model_loss may_raise (fit_history fk) ;;
     invoke (PltCall "gcf") ;;
     invoke (LogFigure "train-validation-loss.png") ;;
     ret run_name)
    (logs (keyword_params ck fk op ++ layer_params built_model)).
Proof.
  apply appends_logs_eq with
    (L := ([] ++ [] ++ [] ++ keyword_params ck fk op ++ []
              ++ layer_params built_model ++ [])%list);
    [|simpl; rewrite app_nil_r; reflexivity].
  apply appends_logs_bind; [apply appends_invoke; reflexivity | intros _].
  apply appends_logs_bind; [apply appends_invoke; reflexivity | intros _].
  apply appends_logs_bind; [apply appends_invoke; reflexivity | intros _].
  apply appends_logs_bind; [apply log_keyword_params_logs | intros _].
  apply appends_logs_bind; [apply log_history_metrics_quiet | intros _].
  apply appends_logs_bind; [apply log_layer_params_logs | intros _].
  repeat (apply appends_quiet_bind;
          [first [apply appends_invoke; reflexivity | apply view_model_loss_quiet]
          | intros _]).
  apply appends_ret. reflexivity.
Qed.

(** What a run of [track_experiments] that returns has logged. *)
Lemma track_experiments_appends (run_name : str) (ck fk op : dict value) :
  appends (track_experiments may_raise built_model fit_history run_name ck fk op)
    (logs (keyword_params ck fk op ++ layer_params built_model)).
Proof.
  intros t r t' E. unfold track_experiments in E.
  apply bind_inv in E. destruct E as [[] [t0 [E0 E]]].
  apply invoke_inv in E0. subst t0.
  apply try_finally_inv in E. destruct E as [t1 [Eb [_ Ec]]].
  pose proof (invoke_inv (EndRun true) t1 _ _ (surjective_pairing _)) as Ec'.
  rewrite Ec in Ec'. clear Ec.
  destruct (run_block_logs run_name ck fk op _ _ _ Eb) as [calls [-> Hp]].
  exists (StartRun run_name :: calls ++ [EndRun true])%list. split.
  - subst t'. rewrite <- !app_assoc. reflexivity.
  - unfold logs in *. simpl. rewrite logged_params_app, Hp. simpl. apply app_nil_r.
Qed.

(** *** The merged dictionary *)

Lemma In_keys_dict_set {V} (d : dict V) (k : str) (v : V) (x : str) :
  In x (keys (dict_set d k v)) <-> x = k \/ In x (keys d).
Proof.
  unfold keys. induction d as [|[k' v'] d IH]; simpl.
  - intuition.
  - destruct (String.eqb_spec k k') as [->|Hne]; simpl.
    + intuition.
    + rewrite IH. intuition.
Qed.

Lemma NoDup_keys_dict_set {V} (d : dict V) (k : str) (v : V) :
  NoDup (keys d) -> NoDup (keys (dict_set d k v)).
Proof.
  induction d as [|[k' v'] d IH]; simpl; intros H.
  - constructor; [intros [] | constructor].
  - inversion H as [|? ? Hnin Hd]; subst.
    destruct (String.eqb_spec k k') as [->|Hne]; simpl.
    + constructor; assumption.
    + constructor; [|apply IH; exact Hd].
      intros Hin. apply (In_keys_dict_set d k v k') in Hin.
      destruct Hin as [->|Hin]; [apply Hne; reflexivity | apply Hnin; exact Hin].
Qed.

Lemma NoDup_keys_dict_update {V} (e d : dict V) :
  NoDup (keys d) -> NoDup (keys (dict_update d e)).
Proof.
  unfold dict_update. revert d.
  induction e as [|[k v] e IH]; simpl; intros d H; [exact H|].
  apply IH. apply NoDup_keys_dict_set. exact H.
Qed.

Lemma NoDup_keys_dict_merge3 {V} (a b c : dict V) :
  NoDup (keys (dict_merge3 a b c)).
Proof.
  unfold dict_merge3. repeat apply NoDup_keys_dict_update. constructor.
Qed.

Lemma dict_get_In {V} (d : dict V) (k : str) (v : V) :
  NoDup (keys d) -> (In (k, v) d <-> dict_get d k = Some v).
Proof.
  induction d as [|[k' v'] d IH]; simpl; intros H.
  - split; [intros [] | discriminate].
  - inversion H as [|? ? Hnin Hd]; subst.
    destruct (String.eqb_spec k k') as [->|Hne].
    + split.
      * intros [E|Hin]; [congruence|]. exfalso. apply Hnin.
        apply (in_map fst) in Hin. exact Hin.
      * intros E. left. congruence.
    + rewrite <- (IH Hd). split.
      * intros [E|Hin]; [congruence | exact Hin].
      * intros Hin. right. exact Hin.
Qed.

Lemma not_x_or_y (k : str) :
  negb (mem k ["x"; "y"]) = true <-> k <> "x" /\ k <> "y".
Proof.
  unfold mem. simpl.
  destruct (String.eqb_spec k "x"), (String.eqb_spec k "y"); simpl;
    intuition congruence.
Qed.

Lemma NoDup_map_fst_filter {V} (f : str * V -> bool) (d : dict V) :
  NoDup (keys d) -> NoDup (map fst (filter f d)).
Proof.
  unfold keys. induction d as [|kv d IH]; simpl; intros H; [constructor|].
  inversion H as [|? ? Hnin Hd]; subst.
  destruct (f kv); simpl; [|apply IH; exact Hd].
  constructor; [|apply IH; exact Hd].
  intros Hin. apply Hnin. apply in_map_iff in Hin.
  destruct Hin as [kv' [E Hin]]. apply filter_In in Hin.
  apply in_map_iff. exists kv'. tauto.
Qed.

Lemma layer_params_from_keys (ls : list (list value)) (k : str) :
  forall i, In k (map fst (layer_params_from i ls)) ->
            exists j, k = hidden_layer_key j.
Proof.
  unfold layer_params_from.
  induction ls as [|shape ls IH]; intros i;
    cbn [enumerate_from flat_map fst snd]; [intros []|].
  rewrite map_app, in_app_iff. intros [H|H]; [|eapply IH; exact H].
  destruct (nth_error shape 1); simpl in H; [|destruct H].
  destruct H as [<-|[]]. eauto.
Qed.

Lemma layer_params_keys (m : keras_model) (k : str) :
  In k (map fst (layer_params m)) -> exists i, k = hidden_layer_key i.
Proof. apply layer_params_from_keys. Qed.


(** *** The calls of a run, one by one *)

Lemma appends_exact_bind {A B} (m : M (list call) A) (k : A -> M (list call) B)
  (L1 L2 : list call) :
  appends m (eq L1) -> (forall a, appends (k a) (eq L2)) ->
  appends (bind m k) (eq (L1 ++ L2)%list).
Proof.
  intros Hm Hk. eapply appends_bind; eauto.
  intros c1 c2 <- <-. reflexivity.
Qed.

Lemma appends_exact_invoke (c : call) : appends (invoke c) (eq [c]).
Proof. apply appends_invoke. reflexivity. Qed.

Lemma log_keyword_params_calls (ck fk op : dict value) :
  appends (log_keyword_params may_raise ck fk op) (eq (keyword_calls ck fk op)).
Proof.
  unfold log_keyword_params, keyword_calls, keyword_params.
  induction (dict_merge3 ck fk op) as [|[k v] d IH]; cbn [for_in filter fst].
  - apply appends_ret. reflexivity.
  - destruct (negb (mem k ["x"; "y"])).
    + apply (appends_exact_bind _ _ [LogParam k v]);
        [apply appends_exact_invoke | intros []; exact IH].
    + apply (appends_exact_bind _ _ []);
        [apply appends_ret; reflexivity | intros []; exact IH].
Qed.

Lemma log_metric_steps_calls (key : str) (values : list value) :
  forall i,
    appends
      (for_in (enumerate_from i values)
         (fun iv _ => let '(i, v) := iv in invoke (LogMetric key v i)) tt)
      (eq (map (fun iv => LogMetric key (snd iv) (fst iv))
             (enumerate_from i values))).
Proof.
  induction values as [|v values IH]; intros i; cbn [enumerate_from for_in map].
  - apply appends_ret. reflexivity.
  - apply (appends_exact_bind _ _ [LogMetric key v i]);
      [apply appends_exact_invoke | intros []; apply IH].
Qed.

Lemma log_history_metrics_calls (h : history) :
  appends (log_history_metrics may_raise h) (eq (metric_calls h)).
Proof.
  unfold log_history_metrics, metric_calls.
  induction h as [|[key values] h IH]; cbn [for_in flat_map fst snd].
  - apply appends_ret. reflexivity.
  - apply appends_exact_bind; [apply log_metric_steps_calls | intros []; exact IH].
Qed.

Lemma log_layer_params_from_calls (ls : list (list value)) :
  forall i,
    appends
      (for_in (enumerate_from i ls)
         (fun il _ =>
            let '(i, output_shape) := il in
            units <- index output_shape 1 ;;
            invoke (LogParam (hidden_layer_key i) units)) tt)
      (eq (layer_calls_from i ls)).
Proof.
  induction ls as [|shape ls IH]; intros i;
    cbn [for_in enumerate_from layer_calls_from].
  - apply appends_ret. reflexivity.
  - unfold index. destruct (nth_error shape 1) as [units|].
    + apply (appends_exact_bind _ _ [LogParam (hidden_layer_key i) units]);
        [|intros []; apply IH].
      intros t a t' E. apply bind_inv in E. destruct E as [u [t1 [E1 E2]]].
      injection E1 as <- <-. apply invoke_inv in E2. subst. eauto.
    + intros t a t' E. unfold bind, raise in E. discriminate.
Qed.

Lemma view_model_loss_calls (h : history) :
  appends (view_model_loss may_raise h) (eq (PltCall "clf" :: plot_calls)).
Proof.
  unfold view_model_loss, getitem, plot_calls.
  apply (appends_exact_bind _ _ [PltCall "clf"]);
    [apply appends_exact_invoke | intros _].
  apply (appends_exact_bind _ _ []).
  { destruct (dict_get h "loss"); [apply appends_ret; reflexivity|].
    intros t a t' E. discriminate. }
  intros _.
  repeat (apply (appends_exact_bind _ _ [_]);
          [apply appends_exact_invoke | intros _]).
  apply appends_ret. reflexivity.
Qed.


(** *** The run is always ended *)

Lemma answered_app (c1 c2 : list call) :
  forall t, answered may_raise t c1 -> answered may_raise (t ++ c1) c2 ->
            answered may_raise t (c1 ++ c2).
Proof.
  induction c1 as [|c c1 IH]; intros t H1 H2; simpl in *.
  - rewrite app_nil_r in H2. exact H2.
  - destruct H1 as [Hc H1]. split; [exact Hc|].
    apply IH; [exact H1|]. rewrite <- app_assoc. exact H2.
Qed.

Lemma raised_last_app (c1 c2 : list call) (e : exn) :
  forall t, answered may_raise t c1 -> raised_last may_raise (t ++ c1) c2 e ->
            raised_last may_raise t (c1 ++ c2) e.
Proof.
  induction c1 as [|c c1 IH]; intros t H1 H2.
  - simpl. rewrite app_nil_r in H2. exact H2.
  - destruct H1 as [Hc H1].
    assert (H : raised_last may_raise (t ++ [c]) (c1 ++ c2) e).
    { apply IH; [exact H1|]. rewrite <- app_assoc. exact H2. }
    change ((c :: c1) ++ c2)%list with (c :: (c1 ++ c2))%list.
    cbn [raised_last]. destruct (c1 ++ c2)%list as [|c' rest].
    + destruct H.
    + split; [exact Hc | exact H].
Qed.

Lemma block_raised_app (c1 c2 : list call) (e : exn) (t : list call) :
  answered may_raise t c1 -> block_raised may_raise (t ++ c1) c2 e ->
  block_raised may_raise t (c1 ++ c2) e.
Proof.
  intros H1 [[He H2]|H2].
  - left. split; [exact He | apply answered_app; assumption].
  - right. apply raised_last_app; assumption.
Qed.

Lemma tracked_ret {A} (Q : A -> Prop) (a : A) :
  Q a -> tracked may_raise Q (ret a).
Proof.
  intros HQ t. exists []. simpl. rewrite app_nil_r.
  split; [reflexivity|]. split; [constructor | split; [exact I | exact HQ]].
Qed.

Lemma tracked_raise {A} (Q : A -> Prop) (e : exn) :
  e = index_error \/ e = key_error ->
  tracked may_raise Q (@raise (list call) A e).
Proof.
  intros He t. exists []. simpl. rewrite app_nil_r.
  split; [reflexivity|]. split; [constructor|].
  left. split; [exact He | exact I].
Qed.

Lemma tracked_invoke (c : call) :
  inner c -> tracked may_raise (fun _ => True) (invoke c).
Proof.
  intros H t. exists [c]. unfold Tracking.invoke.
  destruct (may_raise t c) as [e|] eqn:E; cbn [fst snd];
    (split; [reflexivity|]; split; [repeat constructor; exact H|]).
  - right. exact E.
  - split; [split; [exact E | exact I] | exact I].
Qed.

Lemma tracked_bind {A B} (Q : B -> Prop) (m : M (list call) A)
  (k : A -> M (list call) B) :
  tracked may_raise (fun _ => True) m ->
  (forall a, tracked may_raise Q (k a)) ->
  tracked may_raise Q (bind m k).
Proof.
  intros Hm Hk t. unfold bind. destruct (Hm t) as [c1 [E1 [F1 O1]]].
  destruct (m t) as [[a|e|] t1]; cbn [fst snd] in *.
  - destruct (Hk a t1) as [c2 [E2 [F2 O2]]]. subst t1.
    destruct O1 as [O1 _].
    exists (c1 ++ c2)%list.
    split; [rewrite E2; symmetry; apply app_assoc|].
    split; [apply Forall_app; split; assumption|].
    destruct (fst (k a (t ++ c1)%list)) as [b|e|].
    + destruct O2 as [O2 HQ]. split; [apply answered_app; assumption | exact HQ].
    + apply block_raised_app; assumption.
    + exact O2.
  - exists c1. split; [exact E1|]. split; [exact F1 | exact O1].
  - destruct O1.
Qed.

Lemma tracked_for_in {A} (xs : list A) (body : A -> unit -> M (list call) unit) :
  (forall x, tracked may_raise (fun _ => True) (body x tt)) ->
  tracked may_raise (fun _ => True) (for_in xs body tt).
Proof.
  intros Hb. induction xs as [|x xs IH]; simpl.
  - apply tracked_ret. exact I.
  - apply tracked_bind; [apply Hb | intros []; exact IH].
Qed.

Lemma tracked_run_block (run_name : str) (ck fk op : dict value) :
  tracked may_raise (eq run_name)
    (invoke BuildModel ;;
     invoke (Compile ck) ;;
     invoke (Fit fk) ;;
     log_keyword_params may_raise ck fk op ;;
     log_history_metrics may_raise (fit_history fk) ;;
     log_layer_params may_raise built_model ;;
     invoke (LogModel "model") ;;
     view_model_loss may_raise (fit_history fk) ;;
     invoke (PltCall "gcf") ;;
     invoke (LogFigure "train-validation-loss.png") ;;
     ret run_name).
Proof.
  unfold log_keyword_params, log_history_metrics, log_layer_params,
    view_model_loss, index, getitem.
  repeat first
    [ apply tracked_ret; first [exact I | reflexivity]
    | apply tracked_raise; auto
    | apply tracked_invoke; exact I
    | apply tracked_bind; [|intros ?]
    | apply tracked_for_in; intros ?
    | match goal with
      | |- tracked _ _ (let '(_, _) := ?p in _) => destruct p
      | |- tracked _ _ (if ?b then _ else _) => destruct b
      | |- tracked _ _ (match ?o with Some _ => _ | None => _ end) => destruct o
      end ].
Qed.

Lemma try_finally_ends {A} (Q : A -> Prop) (body : M (list call) A)
  (t : list call) :
  tracked may_raise Q body ->
  exists calls finished,
    snd (try_finally body
           (fun r => match r with
                     | Returns _ => invoke (EndRun true)
                     | _ => invoke (EndRun false)
                     end) t)
    = (t ++ calls ++ [EndRun finished])%list
    /\ Forall inner calls
    /\ if finished
       then answered may_raise t calls
            /\ exists a,
                 Q a
                 /\ fst (try_finally body
                           (fun r => match r with
                                     | Returns _ => invoke (EndRun true)
                                     | _ => invoke (EndRun false)
                                     end) t)
                    = match may_raise (t ++ calls)%list (EndRun true) with
                      | Some e => Raises e
                      | None => Returns a
                      end
       else exists e,
              block_raised may_raise t calls e
              /\ fst (try_finally body
                        (fun r => match r with
                                  | Returns _ => invoke (EndRun true)
                                  | _ => invoke (EndRun false)
                                  end) t)
                 = match may_raise (t ++ calls)%list (EndRun false) with
                   | Some e' => Raises e'
                   | None => Raises e
                   end.
Proof.
  intros H. destruct (H t) as [calls [E [F O]]]. unfold try_finally.
  destruct (body t) as [[a|e|] t1]; cbn [fst snd] in E, O; [| |destruct O];
    subst t1.
  - destruct O as [O HQ]. exists calls, true. unfold Tracking.invoke.
    destruct (may_raise (t ++ calls)%list (EndRun true)); cbn [fst snd];
      (split; [rewrite <- !app_assoc; reflexivity|]);
      (split; [exact F|]); (split; [exact O|]); exists a;
      (split; [exact HQ | reflexivity]).
  - exists calls, false. unfold Tracking.invoke.
    destruct (may_raise (t ++ calls)%list (EndRun false)); cbn [fst snd];
      (split; [rewrite <- !app_assoc; reflexivity|]);
      (split; [exact F|]); exists e; (split; [exact O | reflexivity]).
Qed.

(** X10.  Every run that has been started is ended, once, and as the
    last call of the wrapper, whichever call raises; nothing is started
    or ended in between, and when [start_run] itself raises nothing else
    is called.  The run is ended as finished exactly when the block
    returned: then every call of the block was answered, and the wrapper
    returns the run, unless ending the run raises.  The run is ended as
    failed exactly when the block raised: by its last call, or by a
    lookup of the wrapper itself (the IndexError or the KeyError); then
    the wrapper raises that exception, or the one that ending the run
    raises. *)
Theorem track_experiments_ends_the_run
  (run_name : str) (ck fk op : dict value) (t : list call) :
  match may_raise t (StartRun run_name) with
  | Some e =>
      track_experiments may_raise built_model fit_history run_name ck fk op t
      = (Raises e, (t ++ [StartRun run_name])%list)
  | None =>
      exists calls finished,
        snd (track_experiments may_raise built_model fit_history
               run_name ck fk op t)
        = (t ++ StartRun run_name :: calls ++ [EndRun finished])%list
        /\ Forall inner calls
        /\ if finished
           then answered may_raise (t ++ [StartRun run_name]) calls
                /\ fst (track_experiments may_raise built_model fit_history
                          run_name ck fk op t)
                   = match may_raise (t ++ StartRun run_name :: calls)
                             (EndRun true) with
                     | Some e => Raises e
                     | None => Returns run_name
                     end
           else exists e,
                  block_raised may_raise (t ++ [StartRun run_name]) calls e
                  /\ fst (track_experiments may_raise built_model fit_history
                            run_name ck fk op t)
                     = match may_raise (t ++ StartRun run_name :: calls)
                               (EndRun false) with
                       | Some e' => Raises e'
                       | None => Raises e
                       end
  end.
Proof.
  destruct (may_raise t (StartRun run_name)) as [e|] eqn:Es.
  - unfold track_experiments. unfold bind at 1. unfold Tracking.invoke at 1.
    rewrite Es. reflexivity.
  - destruct (try_finally_ends _ _ (t ++ [StartRun run_name])%list
                (tracked_run_block run_name ck fk op))
      as [calls [finished [E [F R]]]].
    assert (Ht : forall body cleanup,
               (invoke (StartRun run_name) ;; try_finally body cleanup) t
               = @try_finally (list call) str body cleanup
                   (t ++ [StartRun run_name])%list).
    { intros body cleanup. unfold bind, Tracking.invoke. rewrite Es.
      reflexivity. }
    assert (Ea : forall l : list call,
               ((t ++ [StartRun run_name]) ++ l)%list
               = (t ++ StartRun run_name :: l)%list).
    { intros l. rewrite <- app_assoc. reflexivity. }
    unfold track_experiments. rewrite Ht.
    exists calls, finished.
    split; [etransitivity; [exact E | apply Ea]|].
    split; [exact F|].
    rewrite <- (Ea calls). destruct finished.
    + destruct R as [Ha [a [<- R]]]. split; [exact Ha | exact R].
    + exact R.
Qed.

(** *** Which value a keyword is logged with *)

Lemma dict_get_dict_set {V} (d : dict V) (k : str) (v : V) (k' : str) :
  dict_get (dict_set d k v) k'
  = if String.eqb k' k then Some v else dict_get d k'.
Proof.
  induction d as [|[k0 v0] d IH]; simpl; [reflexivity|].
  destruct (String.eqb_spec k k0) as [->|Hne]; simpl.
  - destruct (String.eqb k' k0); reflexivity.
  - destruct (String.eqb_spec k' k0) as [->|Hne'].
    + destruct (String.eqb_spec k0 k) as [E|_]; [congruence | reflexivity].
    + apply IH.
Qed.

Lemma dict_get_keys {V} (d : dict V) (k : str) (v : V) :
  dict_get d k = Some v -> In k (keys d).
Proof.
  induction d as [|[k0 v0] d IH]; simpl; [discriminate|].
  destruct (String.eqb_spec k k0) as [->|_]; auto.
Qed.

Lemma dict_get_dict_update {V} (e d : dict V) (k : str) :
  NoDup (keys e) ->
  dict_get (dict_update d e) k
  = match dict_get e k with
    | Some v => Some v
    | None => dict_get d k
    end.
Proof.
  unfold dict_update. revert d.
  induction e as [|[k0 v0] e IH]; simpl; intros d H; [reflexivity|].
  inversion H as [|? ? Hnin He]; subst.
  rewrite IH by exact He. rewrite dict_get_dict_set.
  destruct (String.eqb_spec k k0) as [->|_]; [|reflexivity].
  destruct (dict_get e k0) as [v|] eqn:E; [|reflexivity].
  exfalso. apply Hnin. exact (dict_get_keys _ _ _ E).
Qed.

Lemma dict_get_dict_merge3 {V} (a b c : dict V) (k : str) :
  NoDup (keys a) -> NoDup (keys b) -> NoDup (keys c) ->
  dict_get (dict_merge3 a b c) k
  = match dict_get c k with
    | Some v => Some v
    | None => match dict_get b k with
              | Some v => Some v
              | None => dict_get a k
              end
    end.
Proof.
  intros Ha Hb Hc. unfold dict_merge3.
  rewrite !dict_get_dict_update by assumption. simpl.
  destruct (dict_get c k), (dict_get b k), (dict_get a k); reflexivity.
Qed.

(** X11.  When the same key is passed in several of the keyword
    dictionaries, the first loop logs it with the value of the last
    dictionary that has it: [optional_params] before [fit_kwargs] before
    [compile_kwargs].  A key other than ["x"] and ["y"] is logged by the
    loop with that value and with no other, and ["x"] and ["y"] are not
    logged at all. *)
Theorem log_keyword_params_last_value
  (ck fk op : dict value) (t t' : list call) :
  NoDup (keys ck) -> NoDup (keys fk) -> NoDup (keys op) ->
  log_keyword_params may_raise ck fk op t = (Returns tt, t') ->
  exists calls,
    t' = (t ++ calls)%list
    /\ forall k v,
         In (LogParam k v) calls
         <-> mem k ["x"; "y"] = false
             /\ match dict_get op k with
                | Some v' => Some v'
                | None => match dict_get fk k with
                          | Some v' => Some v'
                          | None => dict_get ck k
                          end
                end = Some v.
Proof.
  intros Hck Hfk Hop E.
  destruct (log_keyword_params_calls ck fk op _ _ _ E) as [calls [-> <-]].
  exists (keyword_calls ck fk op). split; [reflexivity|]. intros k v.
  rewrite <- (dict_get_dict_merge3 ck fk op k Hck Hfk Hop).
  rewrite <- (dict_get_In _ k v (NoDup_keys_dict_merge3 ck fk op)).
  unfold keyword_calls, keyword_params. rewrite in_map_iff. split.
  - intros [[k' v'] [Heq Hin]]. unfold log_param_call in Heq.
    injection Heq as -> ->. apply filter_In in Hin. destruct Hin as [Hin Hb].
    cbn [fst] in Hb. split; [|exact Hin].
    destruct (mem k ["x"; "y"]); [discriminate | reflexivity].
  - intros [Hm Hin]. exists (k, v). split; [reflexivity|].
    apply filter_In. split; [exact Hin|]. cbn [fst]. rewrite Hm. reflexivity.
Qed.

(** *** A run in which no library call raises *)

Section Quiet.

Hypothesis quiet : forall t c, may_raise t c = None.

Lemma invoke_quiet (c : call) (t : list call) :
  invoke c t = (Returns tt, (t ++ [c])%list).
Proof. unfold Tracking.invoke. rewrite quiet. reflexivity. Qed.

Lemma log_keyword_params_quiet (ck fk op : dict value) (t : list call) :
  log_keyword_params may_raise ck fk op t
  = (Returns tt, (t ++ keyword_calls ck fk op)%list).
Proof.
  unfold log_keyword_params, keyword_calls, keyword_params. revert t.
  induction (dict_merge3 ck fk op) as [|[k v] d IH]; intros t;
    cbn [for_in filter fst].
  - unfold ret. rewrite app_nil_r. reflexivity.
  - unfold bind. destruct (negb (mem k ["x"; "y"])).
    + rewrite invoke_quiet, IH, <- app_assoc. reflexivity.
    + unfold ret. apply IH.
Qed.

Lemma log_metric_steps_quiet (key : str) (values : list value) :
  forall i t,
    for_in (enumerate_from i values)
      (fun iv _ => let '(i, v) := iv in invoke (LogMetric key v i)) tt t
    = (Returns tt,
       (t ++ map (fun iv => LogMetric key (snd iv) (fst iv))
               (enumerate_from i values))%list).
Proof.
  induction values as [|v values IH]; intros i t;
    cbn [enumerate_from for_in map].
  - unfold ret. rewrite app_nil_r. reflexivity.
  - unfold bind. rewrite invoke_quiet, IH, <- app_assoc. reflexivity.
Qed.

Lemma log_history_metrics_quiet_run (h : history) (t : list call) :
  log_history_metrics may_raise h t = (Returns tt, (t ++ metric_calls h)%list).
Proof.
  unfold log_history_metrics, metric_calls. revert t.
  induction h as [|[key values] h IH]; intros t; cbn [for_in flat_map fst snd].
  - unfold ret. rewrite app_nil_r. reflexivity.
  - unfold bind, enumerate. rewrite log_metric_steps_quiet, IH, <- app_assoc.
    reflexivity.
Qed.

Lemma log_layer_params_from_quiet (ls : list (list value)) :
  forall i t,
    for_in (enumerate_from i ls)
      (fun il _ =>
         let '(i, output_shape) := il in
         units <- index output_shape 1 ;;
         invoke (LogParam (hidden_layer_key i) units)) tt t
    = (if forallb (fun shape => match nth_error shape 1 with
                                | Some _ => true
                                | None => false
                                end) ls
       then Returns tt else Raises index_error,
       (t ++ layer_calls_from i ls)%list).
Proof.
  induction ls as [|shape ls IH]; intros i t;
    cbn [for_in enumerate_from layer_calls_from forallb].
  - unfold ret. rewrite app_nil_r. reflexivity.
  - unfold bind, index. destruct (nth_error shape 1) as [units|].
    + unfold ret. rewrite invoke_quiet, IH, <- app_assoc. reflexivity.
    + unfold raise. rewrite app_nil_r. reflexivity.
Qed.

Lemma view_model_loss_quiet_run (h : history) (t : list call) :
  view_model_loss may_raise h t
  = match dict_get h "loss" with
    | Some _ => (Returns tt, (t ++ PltCall "clf" :: plot_calls)%list)
    | None => (Raises key_error, (t ++ [PltCall "clf"])%list)
    end.
Proof.
  unfold view_model_loss, getitem, bind. rewrite invoke_quiet.
  destruct (dict_get h "loss"); [|reflexivity].
  unfold ret. rewrite !invoke_quiet. unfold plot_calls.
  rewrite <- !app_assoc. reflexivity.
Qed.

(** X12.  When no call into Keras, MLflow or matplotlib raises, the
    wrapper can still fail in two ways of its own, and in no other: with
    an IndexError at the first layer whose [output_shape] has no entry 1,
    after the parameters of the layers before it and before the model is
    logged; or with a KeyError when the history has no ["loss"], after
    the model is logged and [plt.clf()] but before any figure is logged.
    Both times the run is ended as failed.  Otherwise it returns, after
    exactly the calls of a whole run. *)
Theorem track_experiments_own_failures
  (run_name : str) (ck fk op : dict value) (t : list call) :
  track_experiments may_raise built_model fit_history run_name ck fk op t
  = if shapes_ok built_model
    then match dict_get (fit_history fk) "loss" with
         | Some _ =>
             (Returns run_name,
              (t ++ run_calls run_name ck fk op built_model (fit_history fk))%list)
         | None =>
             (Raises key_error,
              (t ++ opening_calls run_name ck fk op (fit_history fk)
                 ++ layer_calls built_model
                 ++ [LogModel "model"; PltCall "clf"; EndRun false])%list)
         end
    else (Raises index_error,
          (t ++ opening_calls run_name ck fk op (fit_history fk)
             ++ layer_calls built_model ++ [EndRun false])%list).
Proof.
  unfold track_experiments, try_finally, bind, log_layer_params, enumerate.
  cbv zeta.
  repeat (rewrite invoke_quiet; cbv beta iota).
  rewrite log_keyword_params_quiet; cbv beta iota.
  rewrite log_history_metrics_quiet_run; cbv beta iota.
  rewrite log_layer_params_from_quiet.
  unfold shapes_ok, run_calls, opening_calls, layer_calls.
  destruct (forallb _ (layers built_model)); cbv beta iota.
  - rewrite invoke_quiet; cbv beta iota.
    rewrite view_model_loss_quiet_run.
    destruct (dict_get (fit_history fk) "loss"); cbv beta iota.
    + repeat (rewrite invoke_quiet; cbv beta iota). unfold ret, plot_calls.
      cbv beta iota. rewrite invoke_quiet.
      rewrite <- !app_assoc. reflexivity.
    + rewrite invoke_quiet. rewrite <- !app_assoc. reflexivity.
  - rewrite invoke_quiet. rewrite <- !app_assoc. reflexivity.
Qed.

End Quiet.

End Libraries.

(** *** The first run of the notebook *)




(** *** The further facts on runs of the notebook *)

Ltac distinct_keys :=
  repeat (apply NoDup_cons;
          [ let H := fresh in
            intros H; simpl in H;
            repeat (destruct H as [H|H]; [discriminate|]); exact H
          | ]);
  apply NoDup_nil.


Lemma log_keyword_params_last_value_witness :
  exists calls,
    snd (log_keyword_params never_raises
           shared_compile_kwargs shared_fit_kwargs shared_optional_params [])
    = ([] ++ calls)%list
    /\ forall k v,
         In (LogParam k v) calls
         <-> mem k ["x"; "y"] = false
             /\ match dict_get shared_optional_params k with
                | Some v' => Some v'
                | None => match dict_get shared_fit_kwargs k with
                          | Some v' => Some v'
                          | None => dict_get shared_compile_kwargs k
                          end
                end = Some v.
Proof.
  apply (log_keyword_params_last_value never_raises
           shared_compile_kwargs shared_fit_kwargs shared_optional_params []).
  - unfold keys. simpl. distinct_keys.
  - unfold keys. simpl. distinct_keys.
  - unfold keys. simpl. distinct_keys.
  - vm_compute. reflexivity.
Defined.

(** The loop logs ["epochs"] with the value of [fit_kwargs] and
    ["verbose"] with the value of [optional_params], each in the place of
    its first dictionary. *)
Example shared_keys_logged :
  snd (log_keyword_params never_raises
         shared_compile_kwargs shared_fit_kwargs shared_optional_params [])
  = [LogParam "optimizer" (VStr "adam"); LogParam "epochs" (VInt 10);
     LogParam "verbose" (VInt 0); LogParam "standardize_data" (VStr "true")].
Proof. vm_compute. reflexivity. Qed.

Lemma track_experiments_own_failures_witness :
  track_experiments never_raises flat_model no_loss "ADAM"
    adam_compile_kwargs adam_fit_kwargs [] []
  = if shapes_ok flat_model
    then match dict_get (no_loss adam_fit_kwargs) "loss" with
         | Some _ =>
             (Returns "ADAM",
              ([] ++ run_calls "ADAM" adam_compile_kwargs adam_fit_kwargs []
                       flat_model (no_loss adam_fit_kwargs))%list)
         | None =>
             (Raises key_error,
              ([] ++ opening_calls "ADAM" adam_compile_kwargs adam_fit_kwargs
                       [] (no_loss adam_fit_kwargs)
                  ++ layer_calls flat_model
                  ++ [LogModel "model"; PltCall "clf"; EndRun false])%list)
         end
    else (Raises index_error,
          ([] ++ opening_calls "ADAM" adam_compile_kwargs adam_fit_kwargs
                   [] (no_loss adam_fit_kwargs)
              ++ layer_calls flat_model ++ [EndRun false])%list).
Proof.
  apply (track_experiments_own_failures never_raises flat_model no_loss).
  intros t c. reflexivity.
Defined.

(** With a layer of a one-entry shape the run logs the first layer only,
    raises the IndexError and is ended as failed; with a history without
    a loss the model is logged but no figure. *)
Example flat_model_run :
  fst (track_experiments never_raises flat_model two_epochs "ADAM"
         adam_compile_kwargs adam_fit_kwargs [] []) = Raises index_error
  /\ layer_calls flat_model = [LogParam "hidden_layer_0_units" (VInt 20)]
  /\ fst (track_experiments never_raises notebook_model no_loss "ADAM"
            adam_compile_kwargs adam_fit_kwargs [] []) = Raises key_error.
Proof. repeat split; vm_compute; reflexivity. Qed.

(** When [model.fit] raises, nothing is logged and the run is ended as
    failed. *)
Example fit_failure_ends_the_run_as_failed :
  track_experiments fit_raises notebook_model two_epochs "ADAM"
    adam_compile_kwargs adam_fit_kwargs [] []
  = (Raises (Exception "fit failed"),
     [StartRun "ADAM"; BuildModel; Compile adam_compile_kwargs;
      Fit adam_fit_kwargs; EndRun false]).
Proof. vm_compute. reflexivity. Qed.

End TrackingFacts.
